(** * wasm-run: a shallow embedding of [wasm-run.js]

    The runner loads a WebAssembly module, inspects its function signatures,
    converts command-line arguments to typed arguments, and, for modules that
    import the [wasi_unstable] namespace, installs three wrappers around the
    host's [wasi_snapshot_preview1] functions.

    The embedding follows the JavaScript source function by function.  The
    library calls the source makes (Node's [Buffer] and typed arrays, the
    [restructure] codec, [parseInt], [BigInt], [parseFloat], the conversion
    of a Number to a string) are modelled by their documented behaviour on
    the values the source hands them. *)

From Stdlib Require Import ZArith Lia Bool SpecFloat.
From Stdlib Require Import Strings.Byte Strings.Ascii.
From stdpp Require Import base option list gmap strings pretty.

Set Warnings "-register-all,-abstract-large-number".
Local Open Scope Z_scope.

(** ** JavaScript completions *)

(** What a JavaScript [throw] carries.  The source throws one string itself
    (["Invalid whence"]); the other constructors are the error classes the
    built-ins raise. *)
Inductive exn :=
  | ThrowString (s : string)
  | TypeError
  | RangeError
  | SyntaxError
  | AssertionError.

(** A computation either throws or returns. *)
Definition completion (A : Type) : Type := exn + A.

Definition cbind {A B} (c : completion A) (k : A → completion B) : completion B :=
  match c with
  | inl e => inl e
  | inr a => k a
  end.

(** ** Bytes *)

Definition byte_to_Z (b : byte) : Z := Z.of_N (Byte.to_N b).

(** Storing a number into a [Uint8Array] cell keeps its low eight bits. *)
Definition byte_of_Z (z : Z) : byte :=
  default x00 (Byte.of_N (Z.to_N (Z.land z 255))).

(** [readUInt8], [readUInt16LE], [readUInt32LE]:
    [first + b1 * 2**8 + b2 * 2**16 + last * 2**24]. *)
Fixpoint le_value (bs : list byte) : Z :=
  match bs with
  | [] => 0
  | b :: bs' => byte_to_Z b + 2 ^ 8 * le_value bs'
  end.

(** [writeUInt8], [writeUInt16LE], [writeUInt32LE]:
    [buf[offset++] = value; value = value >>> 8; ...]. *)
Fixpoint le_bytes (n : nat) (value : Z) : list byte :=
  match n with
  | O => []
  | S n' => byte_of_Z value :: le_bytes n' (Z.shiftr value 8)
  end.

(** ** Typed arrays *)

(** The relative index of [%TypedArray%.prototype.slice]: a negative index
    counts from the end, and both ends are clamped to the array. *)
Definition relative_index (len k : Z) : Z :=
  if k <? 0 then Z.max (len + k) 0 else Z.min k len.

(** [mem.slice(start, end)]: a copy of the elements from [start] up to, not
    including, [end]; empty when [end] is not after [start]. *)
Definition slice (mem : list byte) (start end_ : Z) : list byte :=
  let len := Z.of_nat (length mem) in
  let k := relative_index len start in
  let final := relative_index len end_ in
  let count := Z.max (final - k) 0 in
  take (Z.to_nat count) (drop (Z.to_nat k) mem).

(** [mem.set(source, offset)]: a [RangeError] when the source does not fit at
    [offset], otherwise the source is copied over the target from [offset]. *)
Definition typed_array_set (target source : list byte) (offset : Z)
  : completion (list byte) :=
  if offset <? 0 then inl RangeError
  else if Z.of_nat (length target) <? Z.of_nat (length source) + offset
       then inl RangeError
       else inr (list_inserts (Z.to_nat offset) source target).

(** ** The [restructure] codec, as far as the source uses it *)

(** The values that travel between [decode] and [encode]: numbers read from
    integer fields, objects built by [Struct], and [undefined]. *)
Inductive value :=
  | VUndefined
  | VNumber (n : Z)
  | VObject (props : list (string * value)).

(** [obj[key]] on an object; a key that was never set reads [undefined]. *)
Fixpoint prop_get (key : string) (props : list (string * value)) : value :=
  match props with
  | [] => VUndefined
  | (k, v) :: rest => if String.eqb k key then v else prop_get key rest
  end.

(** [obj[key] = v]: an existing key keeps its position, a new key is added
    last. *)
Fixpoint prop_set (key : string) (v : value) (props : list (string * value))
  : list (string * value) :=
  match props with
  | [] => [(key, v)]
  | (k, w) :: rest =>
      if String.eqb k key then (k, v) :: rest else (k, w) :: prop_set key v rest
  end.

(** Unary plus, [+value].  An object without a numeric [valueOf] and
    [undefined] both convert to NaN, which is [None] here. *)
Definition ToNumber (v : value) : option Z :=
  match v with
  | VNumber n => Some n
  | VUndefined => None
  | VObject _ => None
  end.

(** The three [restructure] types the source builds: an unsigned
    little-endian integer of [bytes] bytes ([r.uint8], [r.uint16le],
    [r.uint32le]), [new r.Reserved(type, count)] and [new r.Struct(fields)]. *)
Inductive rtype :=
  | NumberT (bytes : nat)
  | Reserved (t : rtype) (count : nat)
  | Struct (fields : list (string * rtype)).

(** [T.size()] *)
Fixpoint size (t : rtype) : nat :=
  match t with
  | NumberT bytes => bytes
  | Reserved t' count => (size t' * count)%nat
  | Struct fields =>
      (fix sum_fields (fs : list (string * rtype)) : nat :=
         match fs with
         | [] => O
         | (_, ty) :: fs' => (size ty + sum_fields fs')%nat
         end) fields
  end.

(** [r.DecodeStream]: a buffer and a read position. *)
Record DecodeStream := { d_buffer : list byte; d_pos : nat }.

(** [stream.readUInt8()], [readUInt16LE()], [readUInt32LE()]: Node raises a
    range error when the read runs past the end of the buffer. *)
Definition readUInt (bytes : nat) (s : DecodeStream)
  : completion (value * DecodeStream) :=
  if (length (d_buffer s) <? d_pos s + bytes)%nat then inl RangeError
  else inr (VNumber (le_value (take bytes (drop (d_pos s) (d_buffer s)))),
            {| d_buffer := d_buffer s; d_pos := (d_pos s + bytes)%nat |}).

(** [T.decode(stream)].  [Reserved] moves the position and yields
    [undefined]; [Struct] reads its fields in order and stores every field
    whose value is not [undefined]. *)
Fixpoint decode (t : rtype) (s : DecodeStream) : completion (value * DecodeStream) :=
  match t with
  | NumberT bytes => readUInt bytes s
  | Reserved t' count =>
      inr (VUndefined,
           {| d_buffer := d_buffer s; d_pos := (d_pos s + size t' * count)%nat |})
  | Struct fields =>
      (fix parseFields (fs : list (string * rtype)) (res : list (string * value))
           (s : DecodeStream) : completion (value * DecodeStream) :=
         match fs with
         | [] => inr (VObject res, s)
         | (key, ty) :: fs' =>
             match decode ty s with
             | inl e => inl e
             | inr (val, s') =>
                 parseFields fs'
                   (match val with
                    | VUndefined => res
                    | _ => prop_set key val res
                    end) s'
             end
         end) fields [] s
  end.

(** [class EncodeBuffer]: [Buffer.alloc(bufferSize)] and a write position. *)
Record EncodeBuffer := { pos : nat; buff : list byte }.

(** [new EncodeBuffer(bufferSize)], with [bufferSize = bufferSize || 65536]. *)
Definition new_EncodeBuffer (bufferSize : nat) : EncodeBuffer :=
  {| pos := O;
     buff := replicate (if (bufferSize =? 0)%nat then 65536%nat else bufferSize) x00 |}.

(** [get buffer()]: [this.buff.slice(0, this.pos)]. *)
Definition buffer (e : EncodeBuffer) : list byte := take (pos e) (buff e).

(** The methods [writeUInt8], [writeUInt16LE] and [writeUInt32LE] that the
    constructor derives from [Buffer.prototype]:
    [this.buff[key](value, this.pos); return this.pos += bytes].
    Node's writer first takes [+value], raises a range error for a number
    outside [0, 2**(8*bytes) - 1] or a write past the end, and then stores
    the bytes.  NaN passes both comparisons and is stored as zero bytes. *)
Definition writeUInt (bytes : nat) (v : value) (e : EncodeBuffer)
  : completion EncodeBuffer :=
  let n := ToNumber v in
  if match n with
     | Some z => (2 ^ (8 * Z.of_nat bytes) - 1 <? z) || (z <? 0)
     | None => false
     end
  then inl RangeError
  else if (length (buff e) <? pos e + bytes)%nat then inl RangeError
  else inr {| pos := (pos e + bytes)%nat;
              buff := list_inserts (pos e) (le_bytes bytes (default 0 n)) (buff e) |}.

(** [fill(val, length)]: [this.buff.fill(val, this.pos, this.pos + length)]. *)
Definition fill (val : byte) (len : nat) (e : EncodeBuffer) : completion EncodeBuffer :=
  if (length (buff e) <? pos e + len)%nat then inl RangeError
  else inr {| pos := (pos e + len)%nat;
              buff := list_inserts (pos e) (replicate len val) (buff e) |}.

(** [T.encode(stream, val)].  [NumberT] writes [val]; [Reserved] fills its
    span with zeros; [Struct] encodes [val[key]] for each field in order,
    which is a [TypeError] when [val] is [undefined]. *)
Fixpoint encode (t : rtype) (val : value) (e : EncodeBuffer) : completion EncodeBuffer :=
  match t with
  | NumberT bytes => writeUInt bytes val e
  | Reserved t' count => fill x00 (size t' * count) e
  | Struct fields =>
      (fix encodeFields (fs : list (string * rtype)) (e : EncodeBuffer)
         : completion EncodeBuffer :=
         match fs with
         | [] => inr e
         | (key, ty) :: fs' =>
             match val with
             | VUndefined => inl TypeError
             | VNumber _ => cbind (encode ty VUndefined e) (encodeFields fs')
             | VObject props => cbind (encode ty (prop_get key props) e) (encodeFields fs')
             end
         end) fields e
  end.

(** [function encodeStruct(T, data)] *)
Definition encodeStruct (T : rtype) (data : value) : completion (list byte) :=
  let encoder := new_EncodeBuffer (size T) in
  cbind (encode T data encoder) (fun encoder =>
  if (length (buffer encoder) =? size T)%nat then inr (buffer encoder)
  else inl AssertionError).

(** [function decodeStruct(T, buff)] *)
Definition decodeStruct (T : rtype) (buff : list byte) : completion value :=
  if (length buff =? size T)%nat
  then cbind (decode T {| d_buffer := buff; d_pos := O |}) (fun r => inr (fst r))
  else inl AssertionError.

(** The schemas declared for the [wasi_unstable] compatibility layer. *)
Definition uint8 : rtype := NumberT 1.
Definition uint16 : rtype := NumberT 2.
Definition uint32 : rtype := NumberT 4.
Definition uint64 : rtype := Struct [("lo", uint32); ("hi", uint32)].

Definition wasi_snapshot_preview1_filestat_t : rtype :=
  Struct [("dev", uint64);
          ("ino", uint64);
          ("ftype", uint8);
          ("pad0", Reserved uint8 7);
          ("nlink", uint64);
          ("size", uint64);
          ("atim", uint64);
          ("mtim", uint64);
          ("ctim", uint64)].

Definition wasi_unstable_filestat_t : rtype :=
  Struct [("dev", uint64);
          ("ino", uint64);
          ("ftype", uint8);
          ("pad0", Reserved uint8 3);
          ("nlink", uint32);
          ("size", uint64);
          ("atim", uint64);
          ("mtim", uint64);
          ("ctim", uint64)].

(** ** The instance's memory and the host's WASI functions *)

(** A call into [wasi.wasiImport], with its arguments. *)
Inductive wasi_call :=
  | Call_fd_seek (fd offset whence result : Z)
  | Call_fd_filestat_get (fd buf : Z)
  | Call_path_filestat_get (fd flags path path_len buf : Z).

(** [wasi.wasiImport]: each host function reads and writes the instance's
    linear memory and returns a status code.  The memory is a fixed-size byte
    array for the time of a call. *)
Definition WasiImport : Type := wasi_call → list byte → Z * list byte.

(** The state the import wrappers act on: the bytes of the instance's
    memory, the object [ctx], and the calls made into [wasi.wasiImport] so
    far.  [let ctx = {}] has no [memory] at first; [ctx_memory] tells whether
    [ctx.memory = instance.exports.memory] has been run, which the main
    function does only in its [else] branch, before [wasi.start(instance)].
    Until then [ctx.memory] is [undefined]. *)
Record World := { memory : list byte; ctx_memory : bool; calls : list wasi_call }.

(** A wrapper run: it ends by returning or throwing, and leaves a world. *)
Definition M (A : Type) : Type := World → completion A * World.

Definition ret {A} (a : A) : M A := fun w => (inr a, w).

Definition bind {A B} (m : M A) (k : A → M B) : M B :=
  fun w =>
    match m w with
    | (inl e, w') => (inl e, w')
    | (inr a, w') => k a w'
    end.

Notation "'let*' x ':=' m 'in' k" := (bind m (fun x => k))
  (at level 10, x name, m at level 100, k at level 200, only parsing).

(** Lifting a pure step that may throw. *)
Definition lift {A} (c : completion A) : M A := fun w => (c, w).

(** [const mem = new Uint8Array(ctx.memory.buffer)]: reading [buffer] of
    [undefined] is a [TypeError]; otherwise [mem] is a view of the instance's
    memory, and the result is the bytes it shows at that moment. *)
Definition read_mem : M (list byte) :=
  fun w => if ctx_memory w then (inr (memory w), w) else (inl TypeError, w).

(** The bytes that the view [mem], once made, shows at a later moment. *)
Definition view_bytes : M (list byte) := fun w => (inr (memory w), w).

(** [mem.set(source, offset)] on that view. *)
Definition mem_set (source : list byte) (offset : Z) : M unit :=
  fun w =>
    match typed_array_set (memory w) source offset with
    | inl e => (inl e, w)
    | inr m => (inr tt, {| memory := m; ctx_memory := ctx_memory w; calls := calls w |})
    end.

(** Calling one of the functions of [wasi.wasiImport]. *)
Definition call_wasi (wasi : WasiImport) (c : wasi_call) : M Z :=
  fun w =>
    let r := wasi c (memory w) in
    (inr r.1, {| memory := r.2; ctx_memory := ctx_memory w; calls := calls w ++ [c] |}).

(** ** The [wasi_unstable] wrappers *)

(** The [switch (whence)] of [fd_seek]:
<<
    case 0: whence = 1; break;  // cur
    case 1: whence = 2; break;  // end
    case 2: whence = 0; break;  // set
    default: throw "Invalid whence";
>> *)
Definition remap_whence (whence : Z) : completion Z :=
  match whence with
  | 0 => inr 1
  | 1 => inr 2
  | 2 => inr 0
  | _ => inl (ThrowString "Invalid whence")
  end.

(** [imports.wasi_unstable.fd_seek] *)
Definition fd_seek (wasi : WasiImport) (fd offset whence result : Z) : M Z :=
  let* whence := lift (remap_whence whence) in
  call_wasi wasi (Call_fd_seek fd offset whence result).

(** [imports.wasi_unstable.fd_filestat_get] *)
Definition fd_filestat_get (wasi : WasiImport) (fd buf : Z) : M Z :=
  let* mem := read_mem in
  let backup := slice mem (buf + 56) (buf + (64 - 56)) in
  let* res := call_wasi wasi (Call_fd_filestat_get fd buf) in
  let* mem := view_bytes in             (* the same view, after the call *)
  let* modified := lift (cbind (decodeStruct wasi_snapshot_preview1_filestat_t
                                             (slice mem buf (buf + 64)))
                               (encodeStruct wasi_unstable_filestat_t)) in
  let* _ := mem_set modified buf in     (* write new struct *)
  let* _ := mem_set backup (buf + 56) in (* restore backup *)
  ret res.

(** [imports.wasi_unstable.path_filestat_get] *)
Definition path_filestat_get (wasi : WasiImport) (fd flags path path_len buf : Z) : M Z :=
  let* mem := read_mem in
  let backup := slice mem (buf + 56) (buf + (64 - 56)) in
  let* res := call_wasi wasi (Call_path_filestat_get fd flags path path_len buf) in
  let* mem := view_bytes in             (* the same view, after the call *)
  let* modified := lift (cbind (decodeStruct wasi_snapshot_preview1_filestat_t
                                             (slice mem buf (buf + 64)))
                               (encodeStruct wasi_unstable_filestat_t)) in
  let* _ := mem_set modified buf in     (* write new struct *)
  let* _ := mem_set backup (buf + 56) in (* restore backup *)
  ret res.

(** ** JavaScript values on the command-line path *)

(** A string is a sequence of code units; the code units below 256 are the
    ones written here.  A Number is an IEEE 754 binary64 value. *)
Definition prec : Z := 53.
Definition emax : Z := 1024.

(** What an element of [args] can be.  [argv._] holds the positional
    arguments as [yargs] leaves them: the string from the command line, or,
    for an argument that looks like a number ([1e3], [0x10], [1.5], [-5]),
    the Number it denotes; the option [.string('_')] asks for strings, and
    the versions of [yargs] that convert positional arguments after parsing
    do not heed it.  Reading past the end of the array gives [undefined], and
    the loop stores Numbers and BigInts. *)
Inductive jsval :=
  | JUndefined
  | JString (s : string)
  | JNumber (x : spec_float)
  | JBigInt (z : Z).

Definition NaN : spec_float := S754_nan.

(** The Number value for a mathematical value [n / d] with [0 <= n] and
    [0 < d], rounded to nearest, ties to even; [neg] is the sign. *)
Definition Number_of_ratio (neg : bool) (n d : Z) : spec_float :=
  let '(mz, ez, lz) := SFdiv_core_binary prec emax n 0 d 0 in
  binary_round_aux prec emax neg mz ez lz.

(** The mathematical value of a finite Number, as a fraction [(n, d)] in
    lowest terms. *)
Definition Number_value (x : spec_float) : option (Z * Z) :=
  match x with
  | S754_zero _ => Some (0, 1)
  | S754_finite s m e =>
      let m := if s then Z.neg m else Z.pos m in
      let '(n, d) := if 0 <=? e then (m * 2 ^ e, 1) else (m, 2 ^ (- e)) in
      let g := Z.gcd n d in
      Some (n / g, d / g)
  | _ => None
  end.

(** [q * 10^e] for a fraction [q = (n, d)]. *)
Definition scale10 (q : Z * Z) (e : Z) : Z * Z :=
  if 0 <=? e then (q.1 * 10 ^ e, q.2) else (q.1, q.2 * 10 ^ (- e)).

(** For a positive fraction [v], the integer [n] with
    [10^(n-1) <= v < 10^n], looked for around the estimate that the binary
    logarithms give. *)
Definition decimal_exponent (v : Z * Z) : Z :=
  let estimate := (Z.log2 v.1 - Z.log2 v.2) * 30103 / 100000 in
  default 0
    (find (fun n => let '(a, b) := scale10 v (- n) in (b <=? 10 * a) && (a <? b))
          (seqZ (estimate - 3) 8)).

(** Whether the decimal [s * 10^(n-k)] denotes the Number [x], that is,
    rounds to it. *)
Definition converts_to (x : spec_float) (s n k : Z) : bool :=
  let '(a, b) := scale10 (s, 1) (n - k) in
  bool_decide (Number_value (Number_of_ratio false a b) = Number_value x).

(** The decimals of [k] digits that denote [x], of value [v], the nearest to
    [v] first; of two equally near, the even one first.  Only the two
    [k]-digit decimals around [v] can qualify.  The upper one can be the next
    power of ten, which is written with the single digit 1. *)
Definition digits_of_length (x : spec_float) (v : Z * Z) (n k : Z) : list (Z * Z * Z) :=
  let '(a, b) := scale10 v (k - n) in
  let lo := a / b in
  let hi := lo + 1 in
  let r := a mod b in
  let nearest_first :=
    if (2 * r <? b) || ((2 * r =? b) && Z.even lo) then [lo; hi] else [hi; lo] in
  omap (fun s =>
          if converts_to x s n k
          then Some (if s =? 10 ^ k then (n + 1, 1, 1) else (n, k, s))
          else None)
       nearest_first.

(** The integers [n], [k] and [s] of [Number::toString] for a positive
    finite [x] of value [v]: [k >= 1], [10^(k-1) <= s < 10^k],
    [s * 10^(n-k)] denotes [x], and [k] is as small as possible; seventeen
    digits always suffice. *)
Definition shortest_digits (x : spec_float) (v : Z * Z) : Z * Z * Z :=
  let n := decimal_exponent v in
  default (n, 1, 1) (head (mjoin (digits_of_length x v n <$> seqZ 1 17))).

Definition zeros (n : Z) : string := String.concat "" (replicate (Z.to_nat n) "0"%string).

(** [Number::toString(x)] with radix 10: plain decimal notation when
    [-5 <= n <= 21], exponent notation otherwise. *)
Definition Number_toString (x : spec_float) : string :=
  match x with
  | S754_nan => "NaN"
  | S754_zero _ => "0"
  | S754_infinity neg => if neg then "-Infinity" else "Infinity"
  | S754_finite neg m e =>
      let x' := S754_finite false m e in
      let '(n, k, s) := shortest_digits x' (default (1, 1) (Number_value x')) in
      let digits : string := pretty s in
      let body :=
        if (-5 <=? n) && (n <=? 21) then
          if k <=? n then digits +:+ zeros (n - k)
          else if 0 <? n then
            String.substring 0 (Z.to_nat n) digits +:+ "." +:+
            String.substring (Z.to_nat n) (Z.to_nat (k - n)) digits
          else "0." +:+ zeros (- n) +:+ digits
        else
          let sign : string := if 0 <? n - 1 then "+" else "-" in
          let exponent := sign +:+ pretty (Z.abs (n - 1)) in
          if k =? 1 then digits +:+ "e" +:+ exponent
          else String.substring 0 1 digits +:+ "." +:+
               String.substring 1 (Z.to_nat (k - 1)) digits +:+ "e" +:+ exponent in
      if neg then "-" +:+ body else body
  end.

(** [ToString(v)] *)
Definition ToString (v : jsval) : string :=
  match v with
  | JUndefined => "undefined"
  | JString s => s
  | JBigInt z => pretty z
  | JNumber x => Number_toString x
  end.

(** White space and line terminators among the code units below 256. *)
Definition is_white_space (c : ascii) : bool :=
  let n := Ascii.N_of_ascii c in
  ((9 <=? n) && (n <=? 13) || (n =? 32) || (n =? 160))%N.

Fixpoint trim_start (s : string) : string :=
  match s with
  | String c s' => if is_white_space c then trim_start s' else s
  | EmptyString => s
  end.

Definition trim (s : string) : string :=
  String.rev (trim_start (String.rev (trim_start s))).

(** The value of a digit in a radix up to 36. *)
Definition digit_value (c : ascii) : option Z :=
  let n := Z.of_N (Ascii.N_of_ascii c) in
  if (48 <=? n) && (n <=? 57) then Some (n - 48)
  else if (97 <=? n) && (n <=? 122) then Some (n - 87)
  else if (65 <=? n) && (n <=? 90) then Some (n - 55)
  else None.

Definition radix_digit (R : Z) (c : ascii) : option Z :=
  match digit_value c with
  | Some d => if d <? R then Some d else None
  | None => None
  end.

(** The longest prefix of [s] made of radix-[R] digits: its value continuing
    from [acc], how many digits it has, and the rest of the string. *)
Fixpoint read_digits (R : Z) (s : string) (acc : Z) (count : nat) : Z * nat * string :=
  match s with
  | String c s' =>
      match radix_digit R c with
      | Some d => read_digits R s' (acc * R + d) (S count)
      | None => (acc, count, s)
      end
  | EmptyString => (acc, count, s)
  end.

(** A leading [+] or [-]: whether the sign is negative, and the rest. *)
Definition read_sign (s : string) : bool * string :=
  match s with
  | String "-" s' => (true, s')
  | String "+" s' => (false, s')
  | _ => (false, s)
  end.

(** The scan of [parseInt(string)] without a radix: leading white space is
    skipped, a sign is read, a leading [0x] or [0X] selects radix 16 and
    radix 10 is used otherwise, and the longest run of digits is read.  The
    result is the sign, the value of the run and the number of its digits. *)
Definition parseInt_scan (s : string) : bool * Z * nat :=
  let str := trim_start s in
  let '(neg, str) := read_sign str in
  let '(R, str) := match str with
                   | String "0" (String "x" str') => (16, str')
                   | String "0" (String "X" str') => (16, str')
                   | _ => (10, str)
                   end in
  let '(mathInt, count, _) := read_digits R str 0 O in
  (neg, mathInt, count).

(** [parseInt(string)], on a string: NaN for an empty run of digits,
    otherwise the Number for the signed value of the run. *)
Definition parseInt_string (s : string) : spec_float :=
  let '(neg, mathInt, count) := parseInt_scan s in
  match count with
  | O => NaN
  | _ => Number_of_ratio neg mathInt 1
  end.

(** [parseInt(v)]: the argument is first converted to a string. *)
Definition parseInt (v : jsval) : spec_float := parseInt_string (ToString v).

(** [parseFloat(string)], on a string: leading white space is skipped and
    the longest prefix that is a decimal literal is converted; without such a
    prefix the result is NaN. *)
Definition parseFloat_string (s : string) : spec_float :=
  let str := trim_start s in
  let '(neg, str) := read_sign str in
  if String.prefix "Infinity" str then S754_infinity neg
  else
    let '(int_part, int_count, str1) := read_digits 10 str 0 O in
    let '(mantissa, frac_count, str2) :=
      match str1 with
      | String "." str' =>
          let '(m, c, str'') := read_digits 10 str' int_part O in
          match int_count, c with
          | O, O => (int_part, O, str1)
          | _, _ => (m, c, str'')
          end
      | _ => (int_part, O, str1)
      end in
    match int_count, frac_count with
    | O, O => NaN
    | _, _ =>
        let exponent :=
          match str2 with
          | String c str3 =>
              if (Ascii.eqb c "e" || Ascii.eqb c "E")%bool then
                let '(eneg, str4) := read_sign str3 in
                let '(e, ecount, _) := read_digits 10 str4 0 O in
                match ecount with
                | O => 0
                | _ => if eneg then - e else e
                end
              else 0
          | EmptyString => 0
          end in
        let scale := exponent - Z.of_nat frac_count in
        Number_of_ratio neg (mantissa * 10 ^ Z.max scale 0) (10 ^ Z.max (- scale) 0)
    end.

(** [parseFloat(v)]: the argument is first converted to a string. *)
Definition parseFloat (v : jsval) : spec_float := parseFloat_string (ToString v).

(** [StringToBigInt]: the trimmed string is empty (zero), a signed run of
    decimal digits, or an unsigned run of digits after [0x], [0o] or [0b] in
    either case; anything else is not a BigInt literal. *)
Definition StringToBigInt (s : string) : option Z :=
  let all_digits (R : Z) (str : string) : option Z :=
    let '(n, count, rest) := read_digits R str 0 O in
    match count, rest with
    | S _, EmptyString => Some n
    | _, _ => None
    end in
  match trim s with
  | EmptyString => Some 0
  | String "0" (String "x" str) | String "0" (String "X" str) => all_digits 16 str
  | String "0" (String "o" str) | String "0" (String "O" str) => all_digits 8 str
  | String "0" (String "b" str) | String "0" (String "B" str) => all_digits 2 str
  | str =>
      let '(neg, str) := read_sign str in
      (fun n => if neg then - n else n) <$> all_digits 10 str
  end.

(** Whether a Number is an integer, and which. *)
Definition integral_value (x : spec_float) : option Z :=
  match Number_value x with
  | Some (n, d) => if (n mod d =? 0) then Some (n / d) else None
  | None => None
  end.

(** [BigInt(value)]: [undefined] is a [TypeError], a string that is not a
    BigInt literal a [SyntaxError], a Number that is not an integer a
    [RangeError]. *)
Definition BigInt (v : jsval) : completion Z :=
  match v with
  | JUndefined => inl TypeError
  | JString s =>
      match StringToBigInt s with
      | Some z => inr z
      | None => inl SyntaxError
      end
  | JNumber x =>
      match integral_value x with
      | Some z => inr z
      | None => inl RangeError
      end
  | JBigInt z => inr z
  end.

(** ** Positional arguments *)

(** How [yargs] fills [argv._]: after parsing, every positional argument
    [arg] with
    [looksLikeNumber(arg) && Number.isSafeInteger(Math.floor(parseFloat(arg)))]
    is replaced by [Number(arg)].  [looksLikeNumber] accepts a hexadecimal
    literal, [/^0x[0-9a-f]+$/i]; it rejects anything else that starts with a
    zero not followed by a point, [/^0[^.]/]; and it accepts a decimal
    literal: an optional [-], then digits with an optional point and further
    digits, or a point and digits, then an optional exponent made of [e], an
    optional sign and digits, and nothing after that. *)
(** [/^0x[0-9a-f]+$/i]; the result is the value of the digits. *)
Definition hex_literal (s : string) : option Z :=
  match s with
  | String "0" (String x str) =>
      if (Ascii.eqb x "x" || Ascii.eqb x "X")%bool then
        match read_digits 16 str 0 O with
        | (n, S _, EmptyString) => Some n
        | _ => None
        end
      else None
  | _ => None
  end.

(** [/^0[^.]/] *)
Definition leading_zero (s : string) : bool :=
  match s with
  | String "0" (String c _) => negb (Ascii.eqb c ".")
  | _ => false
  end.

(** The decimal literal of [looksLikeNumber]. *)
Definition decimal_literal (s : string) : bool :=
  let str := match s with String "-" s' => s' | _ => s end in
  let '(_, int_count, str1) := read_digits 10 str 0 O in
  let after_mantissa : option string :=
    match str1 with
    | String "." str2 =>
        let '(_, frac_count, str3) := read_digits 10 str2 0 O in
        match int_count, frac_count with
        | O, O => None
        | _, _ => Some str3
        end
    | _ => match int_count with O => None | _ => Some str1 end
    end in
  match after_mantissa with
  | Some EmptyString => true
  | Some (String "e" str4) =>
      let str5 := match str4 with
                  | String "-" s' => s'
                  | String "+" s' => s'
                  | _ => str4
                  end in
      match read_digits 10 str5 0 O with
      | (_, S _, EmptyString) => true
      | _ => false
      end
  | _ => false
  end.

Definition looksLikeNumber (s : string) : bool :=
  match hex_literal s with
  | Some _ => true
  | None => negb (leading_zero s) && decimal_literal s
  end.

(** [Number.isSafeInteger(Math.floor(x))] *)
Definition floor_is_safe (x : spec_float) : bool :=
  match Number_value x with
  | Some (n, d) => Z.abs (n / d) <=? 2 ^ 53 - 1
  | None => false
  end.

(** The element of [argv._] for the command-line argument [arg].
    [Number(arg)] is the value of the digits for a hexadecimal literal, and
    for a decimal literal what [parseFloat] reads, which is all of it. *)
Definition positional_value (arg : string) : jsval :=
  if looksLikeNumber arg && floor_is_safe (parseFloat_string arg) then
    match hex_literal arg with
    | Some n => JNumber (Number_of_ratio false n 1)
    | None => JNumber (parseFloat_string arg)
    end
  else JString arg.

(** ** Argument conversion *)

(** [args[i]]: reading past the end of the array gives [undefined]. *)
Definition array_get (args : list jsval) (i : nat) : jsval :=
  default JUndefined (args !! i).

(** [args[i] = v]: an index past the end extends the array; the elements
    skipped over are holes, which read as [undefined]. *)
Definition array_set (args : list jsval) (i : nat) (v : jsval) : list jsval :=
  if (i <? length args)%nat then <[i := v]> args
  else args ++ replicate (i - length args) JUndefined ++ [v].

(** One turn of the loop, the [switch (funcInfo.params[i])]:
<<
    case 'i32': args[i] = parseInt(args[i]);    break;
    case 'i64': args[i] = BigInt(args[i]);      break;
    case 'f32':
    case 'f64': args[i] = parseFloat(args[i]);  break;
>>
    There is no [default] case. *)
Definition coerce_at (ty : string) (i : nat) (args : list jsval)
  : completion (list jsval) :=
  if String.eqb ty "i32" then
    inr (array_set args i (JNumber (parseInt (array_get args i))))
  else if String.eqb ty "i64" then
    cbind (BigInt (array_get args i)) (fun z => inr (array_set args i (JBigInt z)))
  else if (String.eqb ty "f32" || String.eqb ty "f64")%bool then
    inr (array_set args i (JNumber (parseFloat (array_get args i))))
  else inr args.

(** [for (let i = 0; i < funcInfo.params.length; i++) ...], entered at index
    [i] with the parameter types from [i] on still to visit. *)
Fixpoint coerce_from (params : list string) (i : nat) (args : list jsval)
  : completion (list jsval) :=
  match params with
  | [] => inr args
  | ty :: params' => cbind (coerce_at ty i args) (coerce_from params' (S i))
  end.

(** The whole loop over [args = argv._.slice(1)], an array of strings and
    Numbers. *)
Definition coerce (params : list string) (args : list jsval)
  : completion (list jsval) :=
  coerce_from params 0 args.

(** ** Signature introspection *)

(** The Binaryen type identifiers that [decodeType] tells apart. *)
Inductive BinaryenType :=
  | Binaryen_none
  | Binaryen_i32
  | Binaryen_i64
  | Binaryen_f32
  | Binaryen_f64
  | Binaryen_v128
  | Binaryen_funcref
  | Binaryen_anyref
  | Binaryen_nullref
  | Binaryen_exnref
  | Binaryen_other (id : N).

(** [function decodeType(t)] *)
Definition decodeType (t : BinaryenType) : string :=
  match t with
  | Binaryen_none => "none"
  | Binaryen_i32 => "i32"
  | Binaryen_i64 => "i64"
  | Binaryen_f32 => "f32"
  | Binaryen_f64 => "f64"
  | Binaryen_v128 => "v128"
  | Binaryen_funcref => "funcref"
  | Binaryen_anyref => "anyref"
  | Binaryen_nullref => "nullref"
  | Binaryen_exnref => "externref"
  | Binaryen_other _ => "unknown"
  end.

(** [Binaryen.getFunctionInfo(...)], with the two types already expanded. *)
Record FunctionInfo := {
  info_name : string;
  info_params : list BinaryenType;
  info_results : list BinaryenType }.

Inductive ExternalKind :=
  | ExternalFunction
  | ExternalTable
  | ExternalMemory
  | ExternalGlobal
  | ExternalEvent.

Global Instance ExternalKind_eq_dec : EqDecision ExternalKind.
Proof. solve_decision. Defined.

(** [Binaryen.getExportInfo(...)]: [exp_name] is the public name and
    [exp_value] the internal name of what is exported. *)
Record ExportInfo := {
  exp_kind : ExternalKind;
  exp_name : string;
  exp_value : string }.

(** What [parseWasmInfo] reads of the module that Binaryen parsed. *)
Record BinaryenModule := {
  functions : list FunctionInfo;
  exports : list ExportInfo }.

(** The object literal [{ index, params, results }]. *)
Record Signature := {
  index : nat;
  params : list string;
  results : list string }.

(** [result] while [parseWasmInfo] runs.  Every object literal the first
    loop evaluates is a new object; [objects] holds them in the order they
    were made and a reference is a position in it.  [funcsByIndex] and
    [funcsByName] hold references, so that two entries naming one object
    hold the same reference; [None] stands for [undefined].  A key of
    [funcsByName] is a property that was assigned; reading any other key is
    [undefined]. *)
Record WasmInfo2 := {
  objects : list Signature;
  funcsByIndex : list (option nat);
  funcsByName : gmap string (option nat) }.

(** [result.funcsByName[key]] *)
Definition byName (r : WasmInfo2) (key : string) : option nat :=
  default None (funcsByName r !! key).

(** [result.funcsByIndex[i]] *)
Definition byIndex (r : WasmInfo2) (i : nat) : option nat :=
  default None (funcsByIndex r !! i).

(** The object a reference names. *)
Definition deref (r : WasmInfo2) (ref : option nat) : option Signature :=
  ref ≫= (objects r !!.).

(** The object literal of the first loop:
<<
    { index:   i,
      params:  Binaryen.expandType(info.params).map(x => decodeType(x)),
      results: Binaryen.expandType(info.results).map(x => decodeType(x)) }
>> *)
Definition signature_of (i : nat) (info : FunctionInfo) : Signature :=
  {| index := i;
     params := decodeType <$> info_params info;
     results := decodeType <$> info_results info |}.

(** The body of the first loop, for the function at index [i]:
    [result.funcsByIndex[i] = result.funcsByName[info.name] = {...}]. *)
Definition add_function (r : WasmInfo2) (i : nat) (info : FunctionInfo) : WasmInfo2 :=
  let ref := length (objects r) in
  {| objects := objects r ++ [signature_of i info];
     funcsByIndex :=
       (if (i <? length (funcsByIndex r))%nat then <[i := Some ref]> (funcsByIndex r)
        else funcsByIndex r ++ replicate (i - length (funcsByIndex r)) None ++ [Some ref]);
     funcsByName := <[info_name info := Some ref]> (funcsByName r) |}.

Fixpoint add_functions (r : WasmInfo2) (i : nat) (infos : list FunctionInfo) : WasmInfo2 :=
  match infos with
  | [] => r
  | info :: infos' => add_functions (add_function r i info) (S i) infos'
  end.

(** The body of the second loop:
<<
    if (exp.kind == Binaryen.ExternalFunction) {
        let item = result.funcsByName[exp.value];
        result.funcsByName[exp.name] = item;
    }
>> *)
Definition add_export (r : WasmInfo2) (exp : ExportInfo) : WasmInfo2 :=
  if bool_decide (exp_kind exp = ExternalFunction) then
    let item := byName r (exp_value exp) in
    {| objects := objects r;
       funcsByIndex := funcsByIndex r;
       funcsByName := <[exp_name exp := item]> (funcsByName r) |}
  else r.

(** [async function parseWasmInfo(binary)], from the parsed module on. *)
Definition parseWasmInfo (module : BinaryenModule) : WasmInfo2 :=
  let result := {| objects := []; funcsByIndex := []; funcsByName := ∅ |} in
  let result := add_functions result 0 (functions module) in
  foldl add_export result (exports module).

(** ** Choosing what to run *)

(** The two options of [argv] the main function reads: [argv.invoke], a
    string, which is [undefined] without the flag, and the positional
    arguments [argv._], of which the first names the input file. *)
Record Argv := { invoke : option string; positional : list jsval }.

(** [wasmInfo] of the main function: [wasiVersion] is [undefined] when no
    import namespace starts with [wasi_]. *)
Record WasmInfo := { wasiVersion : option string; exportedFuncs : list string }.

(** The last import namespace that starts with [wasi_]:
    [for (const i of expectedImports) if (i.module.startsWith("wasi_")) ...]. *)
Definition detect_wasiVersion (import_modules : list string) : option string :=
  foldl (fun found m => if String.prefix "wasi_" m then Some m else found)
        None import_modules.

(** Truthiness of a value that is a string or [undefined]: only the empty
    string and [undefined] are falsy. *)
Definition truthy (v : option string) : bool :=
  match v with
  | Some s => negb (String.eqb s "")
  | None => false
  end.

(** [argv.invoke] after
<<
    if (!argv.invoke && !wasmInfo.wasiVersion && wasmInfo.exportedFuncs.length == 1) {
        argv.invoke = wasmInfo.exportedFuncs[0];
    }
>> *)
Definition auto_invoke (argv : Argv) (wasmInfo : WasmInfo) : option string :=
  if (negb (truthy (invoke argv)) && negb (truthy (wasiVersion wasmInfo))
      && (length (exportedFuncs wasmInfo) =? 1)%nat)%bool
  then exportedFuncs wasmInfo !! 0%nat
  else invoke argv.

(** The two WASI namespaces for which the main function installs imports. *)
Inductive Abi :=
  | Abi_snapshot_preview1
  | Abi_unstable.

(** The block [if (wasmInfo.wasiVersion) { ... }] that prepares the imports.
    [inl msg] is [fatal(msg)], which ends the process.  Otherwise the result
    is the variable [wasi] after the block: [None] for [undefined], when the
    block was skipped, and [Some abi] for the [WASI] object, when the imports
    of the namespace [abi] were installed. *)
Definition prepare_imports (wasmInfo : WasmInfo) : string + option Abi :=
  if truthy (wasiVersion wasmInfo) then
    let version := default ""%string (wasiVersion wasmInfo) in
    if String.eqb version "wasi_snapshot_preview1" then inr (Some Abi_snapshot_preview1)
    else if String.eqb version "wasi_unstable" then inr (Some Abi_unstable)
    else inl ("Unsupported WASI version: " +:+ version)
  else inr None.

(** Where the main function goes. *)
Inductive Control :=
  | Fatal (msg : string)          (* [fatal(msg)]: the process exits with status 1 *)
  | InvokeExport (name : string)  (* the [if (argv.invoke)] branch, past the check *)
  | WasiStart                     (* the [else] branch: [ctx.memory] is assigned and
                                     [wasi.start(instance)] is called *)
  | Uncaught (e : exn).           (* an exception that nothing catches *)

(** [wasmInfo.exportedFuncs.includes(name)] *)
Definition includes (l : list string) (name : string) : bool :=
  existsb (String.eqb name) l.

(** The [if (argv.invoke) ... else ...] that follows the instantiation;
    [wasi] is the variable of that name.  In the [else] branch
    [wasi.start(instance)] is a [TypeError] when [wasi] is [undefined]. *)
Definition select (wasi : option Abi) (argv : Argv) (wasmInfo : WasmInfo) : Control :=
  let invoke := auto_invoke argv wasmInfo in
  if truthy invoke then
    let name := default ""%string invoke in
    if negb (includes (exportedFuncs wasmInfo) name)
    then Fatal ("Function not found: " +:+ name)
    else InvokeExport name
  else
    match wasi with
    | Some _ => WasiStart
    | None => Uncaught TypeError
    end.

(** The main function from the preparation of the imports on, for a module
    that instantiates. *)
Definition main (argv : Argv) (wasmInfo : WasmInfo) : Control :=
  match prepare_imports wasmInfo with
  | inl msg => Fatal msg
  | inr wasi => select wasi argv wasmInfo
  end.

(** The state in which an invoked export starts to run, on a memory [mem]:
    the [if (argv.invoke)] branch never assigns [ctx.memory]. *)
Definition invoke_world (mem : list byte) : World :=
  {| memory := mem; ctx_memory := false; calls := [] |}.

(** The state in which [wasi.start(instance)] starts the module:
    [ctx.memory = instance.exports.memory] has just been run. *)
Definition start_world (mem : list byte) : World :=
  {| memory := mem; ctx_memory := true; calls := [] |}.

(** The arguments of the call [func(...args)] in the [if (argv.invoke)]
    branch: [args = argv._.slice(1)], converted by the parameter types of
    [wasmInfo2.funcsByName[argv.invoke]].  Reading [params] of [undefined] is
    a [TypeError]. *)
Definition call_arguments (module : BinaryenModule) (argv : Argv) (name : string)
  : completion (list jsval) :=
  let args := drop 1 (positional argv) in
  let wasmInfo2 := parseWasmInfo module in
  match deref wasmInfo2 (byName wasmInfo2 name) with
  | Some funcInfo => coerce (params funcInfo) args
  | None => inl TypeError
  end.

(** A function that the instance exports, as JavaScript sees it: called
    with the array of its arguments, it returns a value or throws.  What it
    does with the arguments is the engine's and the module's business. *)
Definition ExportedFunction : Type := list jsval → completion jsval.

(** [let func = instance.exports[argv.invoke]; let result = func(...args)]:
    the whole array is spread into the call; calling [undefined] is a
    [TypeError]. *)
Definition call_export (func : option ExportedFunction) (args : list jsval)
  : completion jsval :=
  match func with
  | Some f => f args
  | None => inl TypeError
  end.

(** The loop over the parameter types, and then the call; the [log] line
    between the two prints and changes nothing. *)
Definition convert_and_call (func : option ExportedFunction) (params : list string)
    (args : list jsval) : completion jsval :=
  cbind (coerce params args) (call_export func).

(** The [if (argv.invoke)] branch past the check; [instance_exports] is
    [instance.exports], as far as it holds functions. *)
Definition invoke_export (instance_exports : string → option ExportedFunction)
    (module : BinaryenModule) (argv : Argv) (name : string) : completion jsval :=
  let args := drop 1 (positional argv) in
  let wasmInfo2 := parseWasmInfo module in
  match deref wasmInfo2 (byName wasmInfo2 name) with
  | Some funcInfo => convert_and_call (instance_exports name) (params funcInfo) args
  | None => inl TypeError
  end.


(** ** Text format *)

(** [text.replace(/pattern/g, replacement)] for a pattern that is a literal,
    non-empty text and a replacement without [$]: the text is scanned from
    the left; where the pattern starts, the replacement is put and the scan
    goes on after the match.
    [skip] counts the characters of a match that are still to pass over. *)
Fixpoint replace_from (pattern replacement : string) (skip : nat) (text : string) : string :=
  match text with
  | EmptyString => EmptyString
  | String c text' =>
      match skip with
      | S skip' => replace_from pattern replacement skip' text'
      | O =>
          if String.prefix pattern text
          then replacement +:+ replace_from pattern replacement
                                 (String.length pattern - 1) text'
          else String c (replace_from pattern replacement 0 text')
      end
  end.

Definition replace_all (pattern replacement text : string) : string :=
  replace_from pattern replacement 0 text.

(** The text that [wat2wasm] hands to [Binaryen.parseText], from the text
    [wat] that [binary.toString()] gives:
<<
    binary.toString()
        .replace(/get_local/g,  'local.get')
        .replace(/get_global/g, 'global.get')
        .replace(/set_local/g,  'local.set')
        .replace(/set_global/g, 'global.set')
>> *)
Definition wat2wasm_text (wat : string) : string :=
  replace_all "set_global" "global.set"
    (replace_all "set_local" "local.set"
       (replace_all "get_global" "global.get"
          (replace_all "get_local" "local.get" wat))).

(** ** Vocabulary of the statements *)

(** The body that [fd_filestat_get] and [path_filestat_get] have in common;
    [stable] is the call into [wasi.wasiImport] that each of them makes. *)
Definition filestat_shim (wasi : WasiImport) (stable : wasi_call) (buf : Z) : M Z :=
  let* mem := read_mem in
  let backup := slice mem (buf + 56) (buf + (64 - 56)) in
  let* res := call_wasi wasi stable in
  let* mem := view_bytes in
  let* modified := lift (cbind (decodeStruct wasi_snapshot_preview1_filestat_t
                                             (slice mem buf (buf + 64)))
                               (encodeStruct wasi_unstable_filestat_t)) in
  let* _ := mem_set modified buf in
  let* _ := mem_set backup (buf + 56) in
  ret res.

(** The 56 bytes that the status wrappers are shown to store at [buf], given
    the memory the host call left: bytes 0 to 16 of the 64-byte record,
    seven zero bytes, bytes 32 to 63 of the record. *)
Definition relayout_at (mem : list byte) (buf : Z) : list byte :=
  let s := take 64 (drop (Z.to_nat buf) mem) in
  take 17 s ++ replicate 7 x00 ++ drop 32 s.

(** The host call [c], made on memory [mem], changes no byte outside
    [[lo, hi)]. *)
Definition writes_within (wasi : WasiImport) (c : wasi_call) (mem : list byte)
    (lo hi : Z) : Prop :=
  ∀ j : nat, ¬ (lo <= Z.of_nat j < hi) → (wasi c mem).2 !! j = mem !! j.


(** An export of kind function. *)
Definition function_export (e : ExportInfo) : Prop := exp_kind e = ExternalFunction.

Global Instance function_export_dec (e : ExportInfo) : Decision (function_export e).
Proof. unfold function_export. apply _. Defined.

(** No function is exported under a name that is the internal name of
    another function. *)
Definition no_reused_name (m : BinaryenModule) : Prop :=
  ∀ e k f, e ∈ exports m → function_export e → functions m !! k = Some f →
           exp_name e = info_name f → exp_value e = info_name f.

(** The loop of [Struct.decode] over the fields that are still to read,
    with the object built so far: the inner loop of [decode], by itself. *)
Fixpoint decode_fields (fs : list (string * rtype)) (res : list (string * value))
    (s : DecodeStream) : completion (value * DecodeStream) :=
  match fs with
  | [] => inr (VObject res, s)
  | (key, ty) :: fs' =>
      match decode ty s with
      | inl e => inl e
      | inr (val, s') =>
          decode_fields fs'
            (match val with
             | VUndefined => res
             | _ => prop_set key val res
             end) s'
      end
  end.

(** Reading a value of type [t] off the front of a byte sequence: the value
    and the bytes that follow it. *)
Fixpoint parse (t : rtype) (bs : list byte) : value * list byte :=
  match t with
  | NumberT bytes => (VNumber (le_value (take bytes bs)), drop bytes bs)
  | Reserved t' count => (VUndefined, drop (size t' * count) bs)
  | Struct fields =>
      (fix parse_fields (fs : list (string * rtype)) (res : list (string * value))
           (bs : list byte) : value * list byte :=
         match fs with
         | [] => (VObject res, bs)
         | (key, ty) :: fs' =>
             let '(val, bs') := parse ty bs in
             parse_fields fs'
               (match val with
                | VUndefined => res
                | _ => prop_set key val res
                end) bs'
         end) fields [] bs
  end.

Fixpoint parse_fields (fs : list (string * rtype)) (res : list (string * value))
    (bs : list byte) : value * list byte :=
  match fs with
  | [] => (VObject res, bs)
  | (key, ty) :: fs' =>
      let '(val, bs') := parse ty bs in
      parse_fields fs'
        (match val with
         | VUndefined => res
         | _ => prop_set key val res
         end) bs'
  end.

(** The bytes of a value of type [t], field after field: the little-endian
    bytes of a number in range (zero bytes for NaN), zero bytes for a
    reserved span, and the first error met otherwise. *)
Fixpoint serialize (t : rtype) (val : value) : completion (list byte) :=
  match t with
  | NumberT bytes =>
      match ToNumber val with
      | Some z =>
          if (2 ^ (8 * Z.of_nat bytes) - 1 <? z) || (z <? 0) then inl RangeError
          else inr (le_bytes bytes z)
      | None => inr (le_bytes bytes 0)
      end
  | Reserved t' count => inr (replicate (size t' * count) x00)
  | Struct fields =>
      (fix serialize_fields (fs : list (string * rtype)) : completion (list byte) :=
         match fs with
         | [] => inr []
         | (key, ty) :: fs' =>
             match val with
             | VUndefined => inl TypeError
             | VNumber _ =>
                 cbind (serialize ty VUndefined) (fun bs =>
                 cbind (serialize_fields fs') (fun rest => inr (bs ++ rest)))
             | VObject props =>
                 cbind (serialize ty (prop_get key props)) (fun bs =>
                 cbind (serialize_fields fs') (fun rest => inr (bs ++ rest)))
             end
         end) fields
  end.

(** The first [size t] bytes of [bs] with every reserved span set to zero. *)
Fixpoint zero_reserved (t : rtype) (bs : list byte) : list byte :=
  match t with
  | NumberT bytes => take bytes bs
  | Reserved t' count => replicate (size t' * count) x00
  | Struct fields =>
      (fix zero_fields (fs : list (string * rtype)) (bs : list byte) : list byte :=
         match fs with
         | [] => []
         | (_, ty) :: fs' => zero_reserved ty bs ++ zero_fields fs' (drop (size ty) bs)
         end) fields bs
  end.

(** A value that [encode] takes without error: every number that a number
    field is given lies in the field's range (a field given anything else
    takes it as NaN), and no struct with fields is given [undefined]; a
    number given to a struct reads [undefined] under every key. *)
Fixpoint encodable (t : rtype) (val : value) : Prop :=
  match t with
  | NumberT bytes =>
      match ToNumber val with
      | Some z => 0 <= z <= 2 ^ (8 * Z.of_nat bytes) - 1
      | None => True
      end
  | Reserved _ _ => True
  | Struct fields =>
      (fix all_fields (fs : list (string * rtype)) : Prop :=
         match fs with
         | [] => True
         | (key, ty) :: fs' =>
             match val with
             | VUndefined => False
             | VNumber _ => encodable ty VUndefined
             | VObject props => encodable ty (prop_get key props)
             end ∧ all_fields fs'
         end) fields
  end.

(** The fields of every struct of [t] have distinct names, as the keys of
    the object literal given to [new r.Struct] have. *)
Fixpoint distinct_keys (t : rtype) : Prop :=
  match t with
  | NumberT _ => True
  | Reserved _ _ => True
  | Struct fields =>
      NoDup fields.*1 ∧
      (fix all_fields (fs : list (string * rtype)) : Prop :=
         match fs with
         | [] => True
         | (_, ty) :: fs' => distinct_keys ty ∧ all_fields fs'
         end) fields
  end.

(** A value has the shape that [decode] produces for type [t]: a number
    that fits the width, [undefined] for a reserved span, and for a struct
    an object with exactly the fields that are not reserved, in order. *)
Fixpoint conforms (t : rtype) (v : value) : Prop :=
  match t with
  | NumberT bytes => ∃ z, v = VNumber z ∧ 0 <= z < 2 ^ (8 * Z.of_nat bytes)
  | Reserved _ _ => v = VUndefined
  | Struct fields =>
      ∃ props, v = VObject props ∧
      (fix fields_conform (fs : list (string * rtype)) (props : list (string * value))
         : Prop :=
         match fs with
         | [] => props = []
         | (key, ty) :: fs' =>
             match ty with
             | Reserved _ _ => fields_conform fs' props
             | _ =>
                 match props with
                 | (key', v') :: props' =>
                     key' = key ∧ conforms ty v' ∧ fields_conform fs' props'
                 | [] => False
                 end
             end
         end) fields props
  end.

(** What the loop leaves at a position whose parameter type is [ty] and
    whose argument is [arg], [None] standing for a missing argument: the
    four cases of the [switch], and the argument itself for any other
    type. *)
Definition converted (ty : string) (arg : option jsval) : completion jsval :=
  let v := default JUndefined arg in
  if String.eqb ty "i32" then inr (JNumber (parseInt v))
  else if String.eqb ty "i64" then cbind (BigInt v) (fun z => inr (JBigInt z))
  else if (String.eqb ty "f32" || String.eqb ty "f64")%bool then inr (JNumber (parseFloat v))
  else inr v.



(** The text [pattern] occurs in [text]. *)
Definition occurs (pattern text : string) : Prop :=
  ∃ before after, text = (before +:+ pattern +:+ after)%string.

(** The same, as a test: [pattern] starts at some position of [text]. *)
Fixpoint occursb (pattern text : string) : bool :=
  String.prefix pattern text ||
  match text with
  | EmptyString => false
  | String _ text' => occursb pattern text'
  end.

(** ** Sample inputs *)

(** A host whose two status functions store [record] at [buf] and return 0,
    and whose [fd_seek] leaves the memory alone. *)
Definition host_storing (record : list byte) : WasiImport :=
  fun c mem =>
    match c with
    | Call_fd_seek _ _ _ _ => (0, mem)
    | Call_fd_filestat_get _ buf => (0, list_inserts (Z.to_nat buf) record mem)
    | Call_path_filestat_get _ _ _ _ buf => (0, list_inserts (Z.to_nat buf) record mem)
    end.

(** A 64-byte stable-layout record: [dev = 1], [ino = 2], [ftype = 4],
    [nlink = 1], [size = 5], [atim = 6], [mtim = 7] and
    [ctim = 0x1817161514131211]. *)
Definition sample_record : list byte :=
  [x01; x00; x00; x00; x00; x00; x00; x00;
   x02; x00; x00; x00; x00; x00; x00; x00;
   x04; x00; x00; x00; x00; x00; x00; x00;
   x01; x00; x00; x00; x00; x00; x00; x00;
   x05; x00; x00; x00; x00; x00; x00; x00;
   x06; x00; x00; x00; x00; x00; x00; x00;
   x07; x00; x00; x00; x00; x00; x00; x00;
   x11; x12; x13; x14; x15; x16; x17; x18].

(** The sentinel pattern [0xAA] repeated. *)
Definition sentinel (n : nat) : list byte := replicate n xaa.

(** An 80-byte memory filled with the sentinel, before any call, in a run
    that went through the [else] branch, so that [ctx.memory] is set. *)
Definition sample_world : World := start_world (sentinel 80).

(** Two functions with the internal names [a] and [b]; [a] is exported as
    [b], and [b] is exported as [x] and as [y]:
<<
    (func $a (export "b") (param i32))
    (func $b (export "x") (export "y") (param i64))
>> *)
Definition sample_module : BinaryenModule :=
  {| functions :=
       [ {| info_name := "a"; info_params := [Binaryen_i32]; info_results := [] |};
         {| info_name := "b"; info_params := [Binaryen_i64]; info_results := [] |} ];
     exports :=
       [ {| exp_kind := ExternalFunction; exp_name := "b"; exp_value := "a" |};
         {| exp_kind := ExternalFunction; exp_name := "x"; exp_value := "b" |};
         {| exp_kind := ExternalFunction; exp_name := "y"; exp_value := "b" |} ] |}.

(** Two functions with the internal names [a] and [b]; [a] is exported as
    [x] and as [y], and [b] as [z]:
<<
    (func $a (export "x") (export "y") (param i32))
    (func $b (export "z") (param i64))
    (memory (export "memory") 1)
>> *)
Definition plain_module : BinaryenModule :=
  {| functions :=
       [ {| info_name := "a"; info_params := [Binaryen_i32]; info_results := [] |};
         {| info_name := "b"; info_params := [Binaryen_i64]; info_results := [] |} ];
     exports :=
       [ {| exp_kind := ExternalFunction; exp_name := "x"; exp_value := "a" |};
         {| exp_kind := ExternalFunction; exp_name := "y"; exp_value := "a" |};
         {| exp_kind := ExternalFunction; exp_name := "z"; exp_value := "b" |};
         {| exp_kind := ExternalMemory; exp_name := "memory"; exp_value := "0" |} ] |}.

(** * Properties *)

(** ** Bytes and little-endian integers *)

Lemma byte_to_Z_range (b : byte) : 0 <= byte_to_Z b < 256.
Proof.
  unfold byte_to_Z. pose proof (Byte.to_N_bounded b) as H. lia.
Qed.

Lemma byte_of_Z_low (b : byte) (hi : Z) : byte_of_Z (byte_to_Z b + 2 ^ 8 * hi) = b.
Proof.
  unfold byte_of_Z. change 255 with (Z.ones 8).
  rewrite Z.land_ones by lia.
  pose proof (byte_to_Z_range b) as Hb.
  replace ((byte_to_Z b + 2 ^ 8 * hi) mod 2 ^ 8) with (byte_to_Z b).
  - unfold byte_to_Z. rewrite N2Z.id, Byte.of_to_N. reflexivity.
  - apply Z.mod_unique with (q := hi); lia.
Qed.

Lemma shiftr_low (b : byte) (hi : Z) : Z.shiftr (byte_to_Z b + 2 ^ 8 * hi) 8 = hi.
Proof.
  rewrite Z.shiftr_div_pow2 by lia.
  pose proof (byte_to_Z_range b) as Hb.
  symmetry. apply Z.div_unique with (r := byte_to_Z b); lia.
Qed.

(** Writing back the integer that was read restores the bytes. *)
Lemma le_bytes_le_value (bs : list byte) : le_bytes (length bs) (le_value bs) = bs.
Proof.
  induction bs as [|b bs IH]; simpl; [reflexivity|].
  rewrite byte_of_Z_low, shiftr_low, IH. reflexivity.
Qed.

Lemma le_value_range (bs : list byte) :
  0 <= le_value bs < 2 ^ (8 * Z.of_nat (length bs)).
Proof.
  induction bs as [|b bs IH]; simpl le_value; simpl length; [simpl; lia|].
  pose proof (byte_to_Z_range b) as Hb.
  replace (8 * Z.of_nat (S (length bs))) with (8 + 8 * Z.of_nat (length bs)) by lia.
  rewrite Z.pow_add_r by lia. nia.
Qed.

Lemma le_bytes_zero (n : nat) : le_bytes n 0 = replicate n x00.
Proof. induction n as [|n IH]; simpl; [reflexivity|]. f_equal. exact IH. Qed.

(** ** The codec on the two status records *)

(** An integer that [readUInt] produced passes the range check of the
    writer of the same width and is stored as the bytes it was read from. *)
Lemma writeUInt_le_value (bs : list byte) (e : EncodeBuffer) :
  (pos e + length bs ≤ length (buff e))%nat →
  writeUInt (length bs) (VNumber (le_value bs)) e
  = inr {| pos := (pos e + length bs)%nat; buff := list_inserts (pos e) bs (buff e) |}.
Proof.
  intros Hfit. unfold writeUInt. simpl ToNumber. cbv beta iota zeta.
  pose proof (le_value_range bs) as Hr.
  replace (2 ^ (8 * Z.of_nat (length bs)) - 1 <? le_value bs) with false
    by (symmetry; apply Z.ltb_ge; lia).
  replace (le_value bs <? 0) with false by (symmetry; apply Z.ltb_ge; lia).
  simpl orb. cbv iota.
  replace (length (buff e) <? pos e + length bs)%nat with false
    by (symmetry; apply Nat.ltb_ge; lia).
  simpl default. rewrite le_bytes_le_value. reflexivity.
Qed.

(** NaN is stored as zero bytes. *)
Lemma writeUInt_NaN (n : nat) (v : value) (e : EncodeBuffer) :
  ToNumber v = None →
  (pos e + n ≤ length (buff e))%nat →
  writeUInt n v e
  = inr {| pos := (pos e + n)%nat; buff := list_inserts (pos e) (replicate n x00) (buff e) |}.
Proof.
  intros Hnan Hfit. unfold writeUInt. rewrite Hnan.
  replace (length (buff e) <? pos e + n)%nat with false
    by (symmetry; apply Nat.ltb_ge; lia).
  simpl. rewrite le_bytes_zero. reflexivity.
Qed.

#[local] Opaque le_value writeUInt.

(** One step of running the encoder on the decoded record: the next write,
    whose buffer is known, is replaced by its result. *)
#[local] Ltac encoder_step :=
  match goal with
  | |- context [writeUInt _ (VNumber (le_value ?bs)) (Build_EncodeBuffer _ _)] =>
      rewrite (writeUInt_le_value bs) by (simpl; lia); cbv
  | |- context [writeUInt ?n (VObject ?o) (Build_EncodeBuffer _ _)] =>
      rewrite (writeUInt_NaN n (VObject o)) by first [reflexivity | simpl; lia]; cbv
  end.

(** What the two status wrappers compute from the 64 bytes at [buf]: bytes
    0 to 16 ([dev], [ino], [ftype]) are kept; bytes 17 to 19 ([pad0]) and
    bytes 20 to 23 ([nlink]) are zero; bytes 24 to 55 are bytes 32 to 63 of
    the input ([size], [atim], [mtim], [ctim]).  [nlink] is zero because the
    decoded [nlink] is an object [{lo, hi}] and the 32-bit writer receives
    that object. *)
Lemma filestat_relayout (s : list byte) :
  length s = 64%nat →
  cbind (decodeStruct wasi_snapshot_preview1_filestat_t s)
        (encodeStruct wasi_unstable_filestat_t)
  = inr (take 17 s ++ replicate 7 x00 ++ drop 32 s).
Proof.
  intros Hlen.
  do 64 (destruct s as [|? s]; [discriminate Hlen|]).
  destruct s; [clear Hlen|discriminate Hlen].
  cbv.
  repeat encoder_step.
  reflexivity.
Qed.
#[local] Transparent le_value writeUInt.

(** Apart from [nlink], the 56 bytes decode to the fields that the 64 bytes
    decode to. *)
Lemma filestat_relayout_fields (s : list byte) (props : list (string * value)) :
  length s = 64%nat →
  decodeStruct wasi_snapshot_preview1_filestat_t s = inr (VObject props) →
  decodeStruct wasi_unstable_filestat_t (take 17 s ++ replicate 7 x00 ++ drop 32 s)
  = inr (VObject (prop_set "nlink" (VNumber 0) props)).
Proof.
  intros Hlen.
  do 64 (destruct s as [|? s]; [discriminate Hlen|]).
  destruct s; [clear Hlen|discriminate Hlen].
  Opaque le_value.
  cbv. intros [= <-]. cbv.
  Transparent le_value.
  reflexivity.
Qed.

Lemma encodeStruct_length (T : rtype) (data : value) (bs : list byte) :
  encodeStruct T data = inr bs → length bs = size T.
Proof.
  unfold encodeStruct, cbind.
  destruct (encode T data _) as [e|enc]; [discriminate|].
  destruct (length (buffer enc) =? size T)%nat eqn:Hlen; [|discriminate].
  intros [= <-]. apply Nat.eqb_eq. exact Hlen.
Qed.

(** ** Slices *)

Lemma slice_in_range (mem : list byte) (start : Z) (n : nat) :
  0 <= start →
  start + Z.of_nat n <= Z.of_nat (length mem) →
  slice mem start (start + Z.of_nat n) = take n (drop (Z.to_nat start) mem).
Proof.
  intros H0 Hfit. unfold slice, relative_index.
  destruct (Z.ltb_spec start 0); [lia|].
  destruct (Z.ltb_spec (start + Z.of_nat n) 0); [lia|].
  f_equal; [|f_equal]; lia.
Qed.

(** The [backup] of the two status wrappers is
    [mem.slice(buf+56, buf+(64-56))], whose end index [buf + 8] lies before
    its start index [buf + 56]: for an offset that is not negative it is
    empty. *)
Lemma backup_empty (mem : list byte) (buf : Z) :
  0 <= buf → slice mem (buf + 56) (buf + (64 - 56)) = [].
Proof.
  intros H0. unfold slice, relative_index.
  destruct (Z.ltb_spec (buf + 56) 0); [lia|].
  destruct (Z.ltb_spec (buf + (64 - 56)) 0); [lia|].
  replace (Z.to_nat _) with O by lia. reflexivity.
Qed.

Lemma typed_array_set_inr (target source : list byte) (offset : Z) (m : list byte) :
  typed_array_set target source offset = inr m →
  0 <= offset ∧ Z.of_nat (length source) + offset <= Z.of_nat (length target) ∧
  m = list_inserts (Z.to_nat offset) source target.
Proof.
  unfold typed_array_set.
  destruct (Z.ltb_spec offset 0); [discriminate|].
  destruct (Z.ltb_spec (Z.of_nat (length target)) (Z.of_nat (length source) + offset));
    [discriminate|].
  intros [= <-]. auto.
Qed.

(** ** The two status wrappers *)

Lemma fd_filestat_get_shim (wasi : WasiImport) (fd buf : Z) :
  fd_filestat_get wasi fd buf = filestat_shim wasi (Call_fd_filestat_get fd buf) buf.
Proof. reflexivity. Qed.

Lemma path_filestat_get_shim (wasi : WasiImport) (fd flags path path_len buf : Z) :
  path_filestat_get wasi fd flags path path_len buf
  = filestat_shim wasi (Call_path_filestat_get fd flags path path_len buf) buf.
Proof. reflexivity. Qed.

(** A run of the shared body on a buffer that lies inside the memory: the
    host call is made, the 56 bytes are stored at [buf], nothing is restored
    and the host's status is returned. *)
Lemma filestat_shim_run (wasi : WasiImport) (stable : wasi_call) (buf : Z) (w : World) :
  ctx_memory w = true →
  length (wasi stable (memory w)).2 = length (memory w) →
  0 <= buf →
  buf + 64 <= Z.of_nat (length (memory w)) →
  filestat_shim wasi stable buf w
  = (inr (wasi stable (memory w)).1,
     {| memory := list_inserts (Z.to_nat buf)
                    (relayout_at (wasi stable (memory w)).2 buf)
                    (wasi stable (memory w)).2;
        ctx_memory := true;
        calls := calls w ++ [stable] |}).
Proof.
  intros Hctx Hlen H0 Hfit.
  unfold filestat_shim, bind, read_mem, view_bytes, call_wasi, lift, mem_set, ret.
  rewrite Hctx. simpl.
  destruct (wasi stable (memory w)) as [res m1] eqn:Hhost. simpl in *.
  rewrite backup_empty by assumption.
  change 64 with (Z.of_nat 64).
  rewrite slice_in_range by lia.
  rewrite filestat_relayout by (rewrite length_take, length_drop; lia).
  fold (relayout_at m1 buf).
  assert (length (relayout_at m1 buf) = 56%nat) as Hmod.
  { unfold relayout_at. cbv zeta.
    rewrite !length_app, length_replicate, length_drop, !length_take, length_drop. lia. }
  unfold typed_array_set. rewrite Hmod.
  destruct (Z.ltb_spec buf 0); [lia|].
  destruct (Z.ltb_spec (Z.of_nat (length m1)) (Z.of_nat 56 + buf)); [lia|].
  simpl. rewrite length_inserts.
  destruct (Z.ltb_spec (buf + 56) 0); [lia|].
  destruct (Z.ltb_spec (Z.of_nat (length m1)) (Z.of_nat 0 + (buf + 56))); [lia|].
  simpl. rewrite Hctx. reflexivity.
Qed.

(** While [ctx.memory] is [undefined], a run of the shared body throws a
    [TypeError] at its first statement: no host call is made and nothing is
    written. *)
Lemma filestat_shim_without_memory (wasi : WasiImport) (stable : wasi_call) (buf : Z)
    (w : World) :
  ctx_memory w = false → filestat_shim wasi stable buf w = (inl TypeError, w).
Proof.
  intros Hctx. unfold filestat_shim, bind, read_mem. rewrite Hctx. reflexivity.
Qed.

(** Whatever way a run of the shared body ends, the memory it leaves is the
    memory as it was (when [ctx.memory] is [undefined]), or the memory the
    host call left, with at most the 56 bytes from [buf] on replaced. *)
Lemma filestat_shim_memory (wasi : WasiImport) (stable : wasi_call) (buf : Z) (w : World) :
  let m1 := (wasi stable (memory w)).2 in
  let m2 := memory (filestat_shim wasi stable buf w).2 in
  m2 = memory w ∨
  m2 = m1 ∨
  (0 <= buf ∧ ∃ modified, length modified = 56%nat ∧
                          m2 = list_inserts (Z.to_nat buf) modified m1).
Proof.
  destruct (ctx_memory w) eqn:Hctx;
    [|left; rewrite filestat_shim_without_memory by assumption; reflexivity].
  right.
  unfold filestat_shim, bind, read_mem, view_bytes, call_wasi, lift, mem_set, ret.
  rewrite Hctx. simpl.
  destruct (wasi stable (memory w)) as [res m1]. simpl.
  destruct (cbind _ _) as [e|modified] eqn:Hcodec; simpl; [left; reflexivity|].
  assert (length modified = 56%nat) as Hmod.
  { unfold cbind in Hcodec. destruct (decodeStruct _ _); [discriminate|].
    apply encodeStruct_length in Hcodec. exact Hcodec. }
  destruct (typed_array_set m1 modified buf) as [e|m2] eqn:Hset; simpl;
    [left; reflexivity|].
  apply typed_array_set_inr in Hset as (Hbuf & _ & ->).
  rewrite backup_empty by assumption.
  right. split; [assumption|]. exists modified. split; [assumption|].
  destruct (typed_array_set _ [] _) as [e|m3] eqn:Hset; simpl; [reflexivity|].
  apply typed_array_set_inr in Hset as (_ & _ & ->). reflexivity.
Qed.

(** On a buffer inside the memory, the eight bytes after the 56-byte record
    are, after the run, the bytes the host call stored there. *)
Lemma filestat_shim_trailing_bytes (wasi : WasiImport) (stable : wasi_call) (buf : Z)
    (w : World) (j : nat) :
  ctx_memory w = true →
  length (wasi stable (memory w)).2 = length (memory w) →
  0 <= buf →
  buf + 64 <= Z.of_nat (length (memory w)) →
  buf + 56 <= Z.of_nat j < buf + 64 →
  memory (filestat_shim wasi stable buf w).2 !! j = (wasi stable (memory w)).2 !! j.
Proof.
  intros Hctx Hlen H0 Hfit Hj.
  rewrite filestat_shim_run by assumption. simpl.
  apply list_lookup_inserts_ge.
  unfold relayout_at. cbv zeta.
  rewrite !length_app, length_replicate, length_drop, !length_take, length_drop. lia.
Qed.

(** On a buffer inside the memory, the four bytes of the record's [nlink]
    field are zero after the run. *)
Lemma filestat_shim_nlink_bytes (wasi : WasiImport) (stable : wasi_call) (buf : Z)
    (w : World) (j : nat) :
  ctx_memory w = true →
  length (wasi stable (memory w)).2 = length (memory w) →
  0 <= buf →
  buf + 64 <= Z.of_nat (length (memory w)) →
  buf + 20 <= Z.of_nat j < buf + 24 →
  memory (filestat_shim wasi stable buf w).2 !! j = Some x00.
Proof.
  intros Hctx Hlen H0 Hfit Hj.
  rewrite filestat_shim_run by assumption. simpl.
  assert (length (take 64 (drop (Z.to_nat buf) (wasi stable (memory w)).2)) = 64%nat)
    as Hs by (rewrite length_take, length_drop; lia).
  assert (length (relayout_at (wasi stable (memory w)).2 buf) = 56%nat) as Hmod.
  { unfold relayout_at. cbv zeta.
    rewrite !length_app, length_replicate, length_drop, !length_take, length_drop. lia. }
  rewrite list_lookup_inserts by lia.
  unfold relayout_at. cbv zeta.
  rewrite lookup_app_r by (rewrite length_take; lia).
  rewrite lookup_app_l by (rewrite length_take, length_replicate; lia).
  apply lookup_replicate_2. rewrite length_take. lia.
Qed.

(** C1: the wrappers are to leave the eight bytes at [buf+56 .. buf+64)
    as they were before the call.  Evaluated on a memory filled with the
    sentinel [0xAA], offset 0 and a host that stores [sample_record]: the
    eight bytes hold the sentinel before the call, and after either wrapper
    they hold the last eight bytes of the host's record. *)
Theorem status_wrappers_trailing_bytes_overwritten :
  slice (memory sample_world) 56 64 = sentinel 8 ∧
  slice (memory (fd_filestat_get (host_storing sample_record) 3 0 sample_world).2) 56 64
  = [x11; x12; x13; x14; x15; x16; x17; x18] ∧
  slice (memory (path_filestat_get (host_storing sample_record) 3 0 0 0 0
                   sample_world).2) 56 64
  = [x11; x12; x13; x14; x15; x16; x17; x18].
Proof. repeat split; vm_compute; reflexivity. Qed.

(** C2: the record written back is to carry, in its 32-bit [nlink], the low
    32 bits of the host record's 64-bit [nlink].  Evaluated on offset 0 and a
    host that stores [sample_record], whose [nlink] is 1: the record the
    wrapper leaves decodes to the host's fields, except that [nlink] is 0. *)
Theorem fd_filestat_get_nlink_is_zero :
  let host := host_storing sample_record in
  let after_host := (host (Call_fd_filestat_get 3 0) (memory sample_world)).2 in
  let after := memory (fd_filestat_get host 3 0 sample_world).2 in
  decodeStruct wasi_snapshot_preview1_filestat_t (slice after_host 0 64)
  = inr (VObject [("dev", VObject [("lo", VNumber 1); ("hi", VNumber 0)]);
                  ("ino", VObject [("lo", VNumber 2); ("hi", VNumber 0)]);
                  ("ftype", VNumber 4);
                  ("nlink", VObject [("lo", VNumber 1); ("hi", VNumber 0)]);
                  ("size", VObject [("lo", VNumber 5); ("hi", VNumber 0)]);
                  ("atim", VObject [("lo", VNumber 6); ("hi", VNumber 0)]);
                  ("mtim", VObject [("lo", VNumber 7); ("hi", VNumber 0)]);
                  ("ctim", VObject [("lo", VNumber 0x14131211);
                                    ("hi", VNumber 0x18171615)])]) ∧
  decodeStruct wasi_unstable_filestat_t (slice after 0 56)
  = inr (VObject [("dev", VObject [("lo", VNumber 1); ("hi", VNumber 0)]);
                  ("ino", VObject [("lo", VNumber 2); ("hi", VNumber 0)]);
                  ("ftype", VNumber 4);
                  ("nlink", VNumber 0);
                  ("size", VObject [("lo", VNumber 5); ("hi", VNumber 0)]);
                  ("atim", VObject [("lo", VNumber 6); ("hi", VNumber 0)]);
                  ("mtim", VObject [("lo", VNumber 7); ("hi", VNumber 0)]);
                  ("ctim", VObject [("lo", VNumber 0x14131211);
                                    ("hi", VNumber 0x18171615)])]).
Proof. split; vm_compute; reflexivity. Qed.

(** C10: when the host's status function changes no byte outside
    [buf .. buf+64), no byte outside that span differs after
    [fd_filestat_get] or [path_filestat_get] from what it was before the
    call, whether the wrapper returns or throws. *)
Theorem status_wrappers_frame (wasi : WasiImport) (fd flags path path_len buf : Z)
    (w : World) (j : nat) :
  writes_within wasi (Call_fd_filestat_get fd buf) (memory w) buf (buf + 64) →
  writes_within wasi (Call_path_filestat_get fd flags path path_len buf) (memory w)
                buf (buf + 64) →
  ¬ (buf <= Z.of_nat j < buf + 64) →
  memory (fd_filestat_get wasi fd buf w).2 !! j = memory w !! j ∧
  memory (path_filestat_get wasi fd flags path path_len buf w).2 !! j = memory w !! j.
Proof.
  intros Hfd Hpath Hj.
  assert (∀ stable, writes_within wasi stable (memory w) buf (buf + 64) →
            memory (filestat_shim wasi stable buf w).2 !! j = memory w !! j) as Hshim.
  { intros stable Hhost.
    destruct (filestat_shim_memory wasi stable buf w)
      as [-> | [-> | (H0 & modified & Hmod & ->)]].
    - reflexivity.
    - apply Hhost, Hj.
    - rewrite <- (Hhost j Hj).
      destruct (Z.lt_ge_cases (Z.of_nat j) buf).
      + apply list_lookup_inserts_lt. lia.
      + apply list_lookup_inserts_ge. lia. }
  rewrite fd_filestat_get_shim, path_filestat_get_shim.
  split; apply Hshim; assumption.
Qed.

Lemma host_storing_writes_within (record : list byte) (c : wasi_call) (mem : list byte)
    (buf : Z) :
  0 <= buf →
  match c with
  | Call_fd_seek _ _ _ _ => True
  | Call_fd_filestat_get _ b | Call_path_filestat_get _ _ _ _ b => b = buf
  end →
  writes_within (host_storing record) c mem buf (buf + Z.of_nat (length record)).
Proof.
  intros H0 Hc j Hj.
  destruct c; simpl in *; subst; try reflexivity.
  all: destruct (Z.lt_ge_cases (Z.of_nat j) buf);
    [apply list_lookup_inserts_lt | apply list_lookup_inserts_ge]; lia.
Qed.

Lemma status_wrappers_frame_witness :
  memory (fd_filestat_get (host_storing sample_record) 3 8 sample_world).2 !! 5%nat
  = memory sample_world !! 5%nat ∧
  memory (path_filestat_get (host_storing sample_record) 3 0 0 0 8 sample_world).2 !! 5%nat
  = memory sample_world !! 5%nat.
Proof.
  apply (status_wrappers_frame (host_storing sample_record) 3 0 0 0 8 sample_world 5).
  - apply (host_storing_writes_within sample_record _ _ 8); [lia | reflexivity].
  - apply (host_storing_writes_within sample_record _ _ 8); [lia | reflexivity].
  - simpl. lia.
Defined.

(** ** The seek wrapper *)

(** C3: [fd_seek] maps [whence] 0 to 1, 1 to 2 and 2 to 0, which is a
    bijection on {0, 1, 2}, and forwards the call with the mapped value; for
    any other [whence] it throws ["Invalid whence"], the memory is untouched
    and no call into the host is made. *)
Theorem fd_seek_remaps_whence (wasi : WasiImport) (fd offset result : Z) (w : World) :
  (remap_whence 0 = inr 1 ∧ remap_whence 1 = inr 2 ∧ remap_whence 2 = inr 0) ∧
  (∀ a s, remap_whence a = inr s → 0 <= a <= 2 ∧ 0 <= s <= 2) ∧
  (∀ a b s, remap_whence a = inr s → remap_whence b = inr s → a = b) ∧
  (∀ s, 0 <= s <= 2 → ∃ a, 0 <= a <= 2 ∧ remap_whence a = inr s) ∧
  (∀ whence s, remap_whence whence = inr s →
     fd_seek wasi fd offset whence result w
     = (inr (wasi (Call_fd_seek fd offset s result) (memory w)).1,
        {| memory := (wasi (Call_fd_seek fd offset s result) (memory w)).2;
           ctx_memory := ctx_memory w;
           calls := calls w ++ [Call_fd_seek fd offset s result] |})) ∧
  (∀ whence, ¬ (0 <= whence <= 2) →
     fd_seek wasi fd offset whence result w = (inl (ThrowString "Invalid whence"), w)).
Proof.
  assert (∀ a, (a = 0 ∨ a = 1 ∨ a = 2) ∨
               remap_whence a = inl (ThrowString "Invalid whence") ∧ ¬ (0 <= a <= 2))
    as Hcases.
  { intros a. destruct a as [|[p|[p|p|]|]|p]; simpl; auto; right; split; auto; lia. }
  split; [auto|]. split; [|split; [|split; [|split]]].
  - intros a s Ha.
    destruct (Hcases a) as [[-> | [-> | ->]] | [Hthrow _]]; try (injection Ha as <-; lia).
    congruence.
  - intros a b s Ha Hb.
    destruct (Hcases a) as [[-> | [-> | ->]] | [Hthrow _]]; [| | |congruence];
      destruct (Hcases b) as [[-> | [-> | ->]] | [Hthrow _]]; simpl in *; congruence.
  - intros s Hs.
    assert (s = 0 ∨ s = 1 ∨ s = 2) as [-> | [-> | ->]] by lia.
    + exists 2. split; [lia|reflexivity].
    + exists 0. split; [lia|reflexivity].
    + exists 1. split; [lia|reflexivity].
  - intros whence s Hs. unfold fd_seek, bind, lift, call_wasi. rewrite Hs. reflexivity.
  - intros whence Hout. unfold fd_seek, bind, lift.
    destruct (Hcases whence) as [? | [-> _]]; [lia|reflexivity].
Qed.

(** ** Argument conversion *)

(** The [if (argv.invoke)] branch converts the arguments and then calls the
    export. *)
Lemma invoke_export_call_arguments (instance_exports : string → option ExportedFunction)
    (module : BinaryenModule) (argv : Argv) (name : string) :
  invoke_export instance_exports module argv name
  = cbind (call_arguments module argv name) (call_export (instance_exports name)).
Proof.
  unfold invoke_export, call_arguments, convert_and_call.
  destruct (deref _ _); reflexivity.
Qed.

(** What [argv._] holds for some command-line arguments. *)
Lemma positional_values :
  positional_value "1e3" = JNumber (Number_of_ratio false 1000 1) ∧
  positional_value "0x10" = JNumber (Number_of_ratio false 16 1) ∧
  positional_value "1.5" = JNumber (Number_of_ratio false 3 2) ∧
  positional_value "-5" = JNumber (Number_of_ratio true 5 1) ∧
  positional_value "2" = JNumber (Number_of_ratio false 2 1) ∧
  positional_value "abc" = JString "abc" ∧
  positional_value "m.wasm" = JString "m.wasm" ∧
  positional_value "9007199254740993" = JString "9007199254740993" ∧
  positional_value "1e" = JString "1e" ∧
  positional_value "007" = JString "007".
Proof. repeat split; vm_compute; reflexivity. Qed.

(** The string forms of Numbers, and the conversions of arguments that reach
    the loop as Numbers: [1000] (given as [1e3]) stays 1000 for an [i32]
    parameter and [16] (given as [0x10]) stays 16 for an [f64] parameter;
    [1.5] is no BigInt; [0.0000001] reads ["1e-7"], of which [parseInt] takes
    the 1. *)
Lemma conversions_of_Numbers :
  ToString (JNumber (Number_of_ratio false 1000 1)) = "1000"%string ∧
  parseInt (JNumber (Number_of_ratio false 1000 1)) = Number_of_ratio false 1000 1 ∧
  parseFloat (JNumber (Number_of_ratio false 16 1)) = Number_of_ratio false 16 1 ∧
  ToString (JNumber (Number_of_ratio false 3 2)) = "1.5"%string ∧
  BigInt (JNumber (Number_of_ratio false 3 2)) = inl RangeError ∧
  BigInt (JNumber (Number_of_ratio false 7 1)) = inr 7 ∧
  ToString (JNumber (Number_of_ratio false 1 10000000)) = "1e-7"%string ∧
  parseInt (JNumber (Number_of_ratio false 1 10000000)) = Number_of_ratio false 1 1 ∧
  ToString (JNumber (Number_of_ratio true 13 4)) = "-3.25"%string ∧
  ToString (JNumber (Number_of_ratio false (10 ^ 21) 1)) = "1e+21"%string ∧
  ToString (JNumber (Number_of_ratio false 1 3)) = "0.3333333333333333"%string.
Proof. repeat split; vm_compute; reflexivity. Qed.

Lemma array_set_length (args : list jsval) (i : nat) (v : jsval) :
  (i < length args)%nat → length (array_set args i v) = length args.
Proof.
  intros Hi. unfold array_set.
  destruct (Nat.ltb_spec i (length args)); [|lia].
  apply length_insert.
Qed.

Lemma array_set_lookup_above (args : list jsval) (i j : nat) (v : jsval) :
  (i < j)%nat → array_set args i v !! j = args !! j.
Proof.
  intros Hij. unfold array_set.
  destruct (Nat.ltb_spec i (length args)).
  - apply list_lookup_insert_ne. lia.
  - rewrite (lookup_ge_None_2 args j) by lia.
    apply lookup_ge_None_2. rewrite !length_app, length_replicate. simpl. lia.
Qed.

Lemma array_get_set_eq (args : list jsval) (i : nat) (v : jsval) :
  array_get (array_set args i v) i = v.
Proof.
  unfold array_get, array_set. destruct (Nat.ltb_spec i (length args)).
  - rewrite list_lookup_insert_eq by assumption. reflexivity.
  - rewrite lookup_app_r by assumption.
    rewrite lookup_app_r by (rewrite length_replicate; lia).
    rewrite length_replicate, Nat.sub_diag. reflexivity.
Qed.

Lemma array_get_set_ne (args : list jsval) (i j : nat) (v : jsval) :
  i ≠ j → array_get (array_set args i v) j = array_get args j.
Proof.
  intros Hne. unfold array_get, array_set. destruct (Nat.ltb_spec i (length args)).
  - rewrite list_lookup_insert_ne by assumption. reflexivity.
  - destruct (Nat.lt_ge_cases j (length args)).
    + rewrite lookup_app_l by assumption. reflexivity.
    + rewrite (lookup_ge_None_2 args j) by assumption.
      rewrite lookup_app_r by assumption.
      destruct (Nat.lt_ge_cases j i).
      * rewrite lookup_app_l by (rewrite length_replicate; lia).
        rewrite lookup_replicate_2 by lia. reflexivity.
      * rewrite lookup_ge_None_2; [reflexivity|].
        rewrite length_app, length_replicate. simpl. lia.
Qed.

(** What an assignment [args[i] = v] changes. *)
Lemma array_set_described (args : list jsval) (i : nat) (v : jsval) :
  array_get (array_set args i v) i = v ∧
  (∀ j, j ≠ i → array_get (array_set args i v) j = array_get args j) ∧
  (∀ j, (i < j)%nat → array_set args i v !! j = args !! j) ∧
  ((i < length args)%nat → length (array_set args i v) = length args).
Proof.
  split; [apply array_get_set_eq|].
  split; [intros j Hj; apply array_get_set_ne; congruence|].
  split; [intros j Hj; apply array_set_lookup_above, Hj|].
  apply array_set_length.
Qed.

(** Only the [i64] case can throw, and it throws what [BigInt] throws. *)
Lemma converted_throws (ty : string) (arg : option jsval) (e : exn) :
  converted ty arg = inl e →
  ty = "i64"%string ∧ BigInt (default JUndefined arg) = inl e.
Proof.
  unfold converted.
  destruct (String.eqb ty "i32"); [intros [=]|].
  destruct (String.eqb_spec ty "i64") as [->|_];
    [|destruct (_ || _)%bool; intros [=]].
  destruct (BigInt (default JUndefined arg)) as [e'|z]; simpl; intros [=].
  subst. auto.
Qed.


(** What [BigInt] throws tells what it was given. *)
Lemma BigInt_throws (v : jsval) (e : exn) :
  BigInt v = inl e →
  (v = JUndefined ∧ e = TypeError) ∨
  (∃ s, v = JString s ∧ StringToBigInt s = None ∧ e = SyntaxError) ∨
  (∃ x, v = JNumber x ∧ integral_value x = None ∧ e = RangeError).
Proof.
  destruct v as [|s|x|z]; simpl.
  - intros [= <-]. auto.
  - destruct (StringToBigInt s) eqn:Hs; intros [= <-]. right. left. eauto.
  - destruct (integral_value x) eqn:Hx; intros [= <-]. right. right. eauto.
  - intros [=].
Qed.

(** One turn of the loop: what it throws or stores at [i] is [converted] of
    the element at [i], and nothing else changes; an index inside the array
    keeps the array's length. *)
Lemma coerce_at_converted (ty : string) (i : nat) (args : list jsval) :
  match converted ty (args !! i) with
  | inl e => coerce_at ty i args = inl e
  | inr v => ∃ out, coerce_at ty i args = inr out ∧
                    array_get out i = v ∧
                    (∀ j, j ≠ i → array_get out j = array_get args j) ∧
                    (∀ j, (i < j)%nat → out !! j = args !! j) ∧
                    ((i < length args)%nat → length out = length args)
  end.
Proof.
  unfold converted, coerce_at. fold (array_get args i).
  destruct (String.eqb ty "i32");
    [|destruct (String.eqb ty "i64");
      [|destruct (String.eqb ty "f32" || String.eqb ty "f64")%bool]].
  - eexists. split; [reflexivity|]. apply array_set_described.
  - destruct (BigInt (array_get args i)) as [e|z]; simpl; [reflexivity|].
    eexists. split; [reflexivity|]. apply array_set_described.
  - eexists. split; [reflexivity|]. apply array_set_described.
  - exists args. auto.
Qed.

(** The loop from index [i] on, position by position. *)
Lemma coerce_from_positions (params : list string) (i : nat) (args : list jsval) :
  match coerce_from params i args with
  | inr out =>
      (∀ j, (j < i)%nat → array_get out j = array_get args j) ∧
      (∀ k ty, params !! k = Some ty →
               converted ty (args !! (i + k)%nat) = inr (array_get out (i + k))) ∧
      (∀ j, (i + length params ≤ j)%nat → out !! j = args !! j) ∧
      ((i + length params ≤ length args)%nat → length out = length args)
  | inl e =>
      ∃ k ty, params !! k = Some ty ∧
              converted ty (args !! (i + k)%nat) = inl e ∧
              ∀ k' ty', (k' < k)%nat → params !! k' = Some ty' →
                        ∃ v, converted ty' (args !! (i + k')%nat) = inr v
  end.
Proof.
  revert i args. induction params as [|ty params IH]; intros i args.
  - simpl. repeat split; auto. intros k ty [=].
  - cbn [coerce_from].
    pose proof (coerce_at_converted ty i args) as Hstep.
    destruct (converted ty (args !! i)) as [e|v] eqn:Hconv.
    + rewrite Hstep. cbn [cbind]. exists 0%nat, ty. rewrite Nat.add_0_r.
      split; [reflexivity|]. split; [exact Hconv|]. intros k' ty' Hlt. lia.
    + destruct Hstep as (args' & -> & Hi & Hother & Habove & Hlength). cbn [cbind].
      specialize (IH (S i) args').
      destruct (coerce_from params (S i) args') as [e|out].
      * destruct IH as (k & ty' & Hk & Hthrow & Hbefore).
        exists (S k), ty'. split; [exact Hk|].
        rewrite Habove in Hthrow by lia.
        replace (i + S k)%nat with (S i + k)%nat by lia. split; [exact Hthrow|].
        intros [|k'] ty'' Hlt Hk'.
        -- simpl in Hk'. injection Hk' as <-. rewrite Nat.add_0_r. eauto.
        -- destruct (Hbefore k' ty'' ltac:(lia) Hk') as [v' Hv'].
           rewrite Habove in Hv' by lia.
           replace (i + S k')%nat with (S i + k')%nat by lia. eauto.
      * destruct IH as (Hbelow & Hat & Hrest & Hlen). split; [|split; [|split]].
        -- intros j Hj. rewrite Hbelow by lia. apply Hother. lia.
        -- intros [|k] ty' Hk.
           ++ simpl in Hk. injection Hk as <-. rewrite Nat.add_0_r.
              rewrite Hbelow by lia. rewrite Hi. exact Hconv.
           ++ replace (i + S k)%nat with (S i + k)%nat by lia.
              rewrite <- Habove by lia. apply Hat, Hk.
        -- intros j Hj. simpl in Hj. rewrite Hrest by lia. apply Habove. lia.
        -- intros Hfit. simpl in Hfit. rewrite Hlen by (rewrite Hlength; lia).
           apply Hlength. lia.
Qed.

(** The whole loop, position by position. *)
Lemma coerce_positions (params : list string) (args : list jsval) :
  match coerce params args with
  | inr out =>
      (∀ k ty, params !! k = Some ty →
               converted ty (args !! k) = inr (array_get out k)) ∧
      (∀ j, (length params ≤ j)%nat → out !! j = args !! j) ∧
      ((length params ≤ length args)%nat → length out = length args)
  | inl e =>
      ∃ k ty, params !! k = Some ty ∧
              converted ty (args !! k) = inl e ∧
              ∀ k' ty', (k' < k)%nat → params !! k' = Some ty' →
                        ∃ v, converted ty' (args !! k') = inr v
  end.
Proof.
  unfold coerce. pose proof (coerce_from_positions params 0 args) as Hrun.
  destruct (coerce_from params 0 args) as [e|out].
  - exact Hrun.
  - destruct Hrun as (_ & Hat & Hrest & Hlen). auto.
Qed.

(** When the loop throws, an [i64] argument could not be converted. *)
Lemma coerce_throws_at_i64 (params : list string) (args : list jsval) (e : exn) :
  coerce params args = inl e →
  ∃ k, params !! k = Some "i64"%string ∧ BigInt (array_get args k) = inl e.
Proof.
  intros Hrun. pose proof (coerce_positions params args) as Hpos.
  rewrite Hrun in Hpos. destruct Hpos as (k & ty & Hk & Hthrow & _).
  apply converted_throws in Hthrow as [-> Hbig]. exists k. auto.
Qed.

(** [coerce (["i32"], ["abc"])] returns an array holding NaN; nothing is
    thrown. *)
Lemma coerce_i32_abc_returns_NaN :
  coerce ["i32"] [JString "abc"] = inr [JNumber NaN].
Proof. vm_compute. reflexivity. Qed.

(** C4, as the code has it: for an [i32] parameter the conversion never
    fails.  Whatever the other parameters and the arguments are, when the
    loop returns, the argument at the position of an [i32] parameter has
    become [parseInt] of the value given there, a string or a Number; when
    the loop throws, it is an [i64] argument at another position that could
    not be converted.  [parseInt] is NaN for a string in which no digit
    follows the optional white space and sign, as for ["abc"], and for a
    missing argument. *)
Theorem coerce_i32_never_fails (params : list string) (args : list jsval) (k : nat) :
  params !! k = Some "i32"%string →
  match coerce params args with
  | inr out => out !! k = Some (JNumber (parseInt (array_get args k)))
  | inl e => ∃ k', k' ≠ k ∧ params !! k' = Some "i64"%string ∧
                   BigInt (array_get args k') = inl e
  end ∧
  (∀ s, (parseInt_scan s).2 = O → parseInt (JString s) = NaN) ∧
  parseInt JUndefined = NaN.
Proof.
  intros Hk. split; [|split].
  - pose proof (coerce_positions params args) as Hpos.
    pose proof (coerce_throws_at_i64 params args) as Hthrows.
    destruct (coerce params args) as [e|out].
    + destruct (Hthrows e eq_refl) as (k' & Hk' & Hbig).
      exists k'. split; [congruence|]. auto.
    + destruct Hpos as (Hat & _ & _). specialize (Hat k _ Hk).
      unfold converted in Hat. simpl in Hat. injection Hat as Hat.
      unfold array_get in *. destruct (out !! k) as [v|]; simpl in *; congruence.
  - intros s. unfold parseInt, parseInt_string. simpl.
    destruct (parseInt_scan s) as [[neg mathInt] count]. simpl. intros ->. reflexivity.
  - vm_compute. reflexivity.
Qed.

Lemma coerce_i32_never_fails_witness :
  match coerce ["i32"] [JString "abc"] with
  | inr out => out !! 0%nat = Some (JNumber (parseInt (array_get [JString "abc"] 0)))
  | inl e => ∃ k', k' ≠ 0%nat ∧ ["i32"] !! k' = Some "i64"%string ∧
                   BigInt (array_get [JString "abc"] k') = inl e
  end ∧
  parseInt (JString "abc") = NaN.
Proof.
  destruct (coerce_i32_never_fails ["i32"] [JString "abc"] 0 eq_refl)
    as (Hreturns & Hnan & _).
  split; [exact Hreturns | apply Hnan; reflexivity].
Defined.

(** C5: [coerce (["i32"; "i64"; "f32"], ["-5"; "9999999999"; "3.25"])]
    returns the Number -5, which lies in the 32-bit range, the BigInt
    9999999999 and the Number 3.25, and so it does when the three arguments
    reach the loop as the Numbers -5, 9999999999 and 3.25.  The [i64]
    conversion is exact where the Number conversion rounds: 2^53 + 1 stays
    2^53 + 1 as a BigInt and becomes 2^53 through [parseInt]. *)
Theorem coerce_mixed_arguments :
  coerce ["i32"; "i64"; "f32"] [JString "-5"; JString "9999999999"; JString "3.25"]
  = inr [JNumber (S754_finite true 5629499534213120 (-50));
         JBigInt 9999999999;
         JNumber (S754_finite false 7318349394477056 (-51))] ∧
  coerce ["i32"; "i64"; "f32"]
         [JNumber (Number_of_ratio true 5 1); JNumber (Number_of_ratio false 9999999999 1);
          JNumber (Number_of_ratio false 13 4)]
  = inr [JNumber (S754_finite true 5629499534213120 (-50));
         JBigInt 9999999999;
         JNumber (S754_finite false 7318349394477056 (-51))] ∧
  Number_value (S754_finite true 5629499534213120 (-50)) = Some (-5, 1) ∧
  - 2 ^ 31 <= -5 < 2 ^ 31 ∧
  Number_value (S754_finite false 7318349394477056 (-51)) = Some (13, 4) ∧
  BigInt (JString "9007199254740993") = inr 9007199254740993 ∧
  Number_value (parseInt_string "9007199254740993") = Some (9007199254740992, 1).
Proof. repeat split; try (vm_compute; congruence). Qed.







(** ** Signature introspection *)

(** The first loop. *)
Lemma add_functions_objects (fs : list FunctionInfo) (r : WasmInfo2) (i : nat) :
  objects (add_functions r i fs) = objects r ++ imap (λ k, signature_of (i + k)) fs.
Proof.
  revert r i. induction fs as [|f fs IH]; intros r i; simpl.
  - rewrite app_nil_r. reflexivity.
  - rewrite IH. simpl. rewrite <- app_assoc. simpl. rewrite Nat.add_0_r.
    do 2 f_equal. apply imap_ext. intros k x _. simpl. f_equal. lia.
Qed.

Lemma add_functions_byIndex (fs : list FunctionInfo) (r : WasmInfo2) (i : nat) :
  length (objects r) = i → length (funcsByIndex r) = i →
  funcsByIndex (add_functions r i fs) = funcsByIndex r ++ (Some <$> seq i (length fs)).
Proof.
  revert r i. induction fs as [|f fs IH]; intros r i Hobj Hidx; simpl.
  - rewrite app_nil_r. reflexivity.
  - rewrite IH; simpl.
    + rewrite Hidx, Hobj, Nat.ltb_irrefl, Nat.sub_diag. simpl.
      rewrite <- app_assoc. reflexivity.
    + rewrite length_app. simpl. lia.
    + rewrite Hidx, Nat.ltb_irrefl, Nat.sub_diag. simpl.
      rewrite length_app. simpl. lia.
Qed.

Lemma add_functions_other_name (fs : list FunctionInfo) (r : WasmInfo2) (i : nat)
    (name : string) :
  name ∉ info_name <$> fs →
  funcsByName (add_functions r i fs) !! name = funcsByName r !! name.
Proof.
  revert r i. induction fs as [|f fs IH]; intros r i Hnotin; simpl; [reflexivity|].
  rewrite fmap_cons in Hnotin. apply not_elem_of_cons in Hnotin as [Hne Hnotin].
  rewrite IH by assumption. simpl. apply lookup_insert_ne. congruence.
Qed.

Lemma add_functions_byName (fs : list FunctionInfo) (r : WasmInfo2) (i k : nat)
    (f : FunctionInfo) :
  length (objects r) = i →
  NoDup (info_name <$> fs) →
  fs !! k = Some f →
  funcsByName (add_functions r i fs) !! info_name f = Some (Some (i + k)%nat).
Proof.
  revert r i k. induction fs as [|f0 fs IH]; intros r i k Hobj Hnodup Hk; [discriminate|].
  rewrite fmap_cons in Hnodup. apply NoDup_cons in Hnodup as [Hfresh Hnodup].
  destruct k as [|k]; simpl in *.
  - injection Hk as ->.
    rewrite add_functions_other_name by assumption. simpl.
    rewrite lookup_insert_eq, Hobj, Nat.add_0_r. reflexivity.
  - rewrite (IH _ (S i) k); [do 2 f_equal; lia| |assumption|assumption].
    simpl. rewrite length_app. simpl. lia.
Qed.

(** The second loop changes neither the objects nor [funcsByIndex]. *)
Lemma add_exports_objects (es : list ExportInfo) (r : WasmInfo2) :
  objects (foldl add_export r es) = objects r ∧
  funcsByIndex (foldl add_export r es) = funcsByIndex r.
Proof.
  revert r. induction es as [|e es IH]; intros r; simpl; [auto|].
  destruct (IH (add_export r e)) as [-> ->].
  unfold add_export. case_bool_decide; auto.
Qed.

(** The second loop, when no export reuses the internal name of another
    function: every internal name and every export name of a function
    refers to that function's object. *)
Lemma add_exports_byName (fs : list FunctionInfo) (es : list ExportInfo) (r : WasmInfo2) :
  (∀ k f, fs !! k = Some f → funcsByName r !! info_name f = Some (Some k)) →
  (∀ e k f, e ∈ es → function_export e → fs !! k = Some f →
            exp_name e = info_name f → exp_value e = info_name f) →
  NoDup (exp_name <$> filter function_export es) →
  (∀ k f, fs !! k = Some f →
          funcsByName (foldl add_export r es) !! info_name f = Some (Some k)) ∧
  (∀ e i f, e ∈ es → function_export e → fs !! i = Some f →
            exp_value e = info_name f →
            funcsByName (foldl add_export r es) !! exp_name e = Some (Some i)).
Proof.
  intros Hinit. induction es as [|e es IH] using rev_ind; intros Hreuse Hnodup.
  - split; [exact Hinit|]. intros e i f Hin. apply elem_of_nil in Hin as [].
  - rewrite foldl_snoc.
    rewrite filter_app, fmap_app in Hnodup.
    apply NoDup_app in Hnodup as (Hnodup & Hfresh & _).
    destruct IH as [Hint Hexp]; [|assumption|].
    { intros e' k f Hin. apply Hreuse. apply elem_of_app. auto. }
    set (r' := foldl add_export r es) in *.
    unfold add_export. case_bool_decide as Hkind; simpl.
    + assert (∀ k f, fs !! k = Some f → exp_value e = info_name f →
                byName r' (exp_value e) = Some k) as Hitem.
      { intros k f Hk ->. unfold byName. rewrite (Hint k f Hk). reflexivity. }
      split.
      * intros k f Hk.
        destruct (decide (exp_name e = info_name f)) as [Heq|Hne].
        -- rewrite Heq, lookup_insert_eq. f_equal. apply (Hitem k f Hk).
           apply (Hreuse e k f); auto. apply elem_of_app. right. apply list_elem_of_singleton.
           reflexivity.
        -- rewrite lookup_insert_ne by assumption. apply Hint. assumption.
      * intros e' i f Hin Hfun Hi Hval.
        apply elem_of_app in Hin as [Hin|Hin].
        -- rewrite lookup_insert_ne; [eapply Hexp; eassumption|].
           intros Heq. apply (Hfresh (exp_name e')).
           ++ apply list_elem_of_fmap. exists e'. split; [reflexivity|].
              apply list_elem_of_filter. auto.
           ++ rewrite <- Heq. rewrite filter_cons_True by exact Hkind.
              simpl. apply list_elem_of_here.
        -- apply list_elem_of_singleton in Hin as ->.
           rewrite lookup_insert_eq. f_equal. apply (Hitem i f Hi Hval).
    + split; [exact Hint|].
      intros e' i f Hin Hfun. apply elem_of_app in Hin as [Hin|Hin].
      * apply Hexp; assumption.
      * apply list_elem_of_singleton in Hin as ->. contradiction.
Qed.

(** In a module whose functions have distinct internal names, whose function
    exports have distinct names and where no export reuses the internal
    name of another function, every export name of the function at index
    [i] refers to the object at [funcsByIndex[i]], which has that function's
    index and types. *)
Lemma exports_alias_their_function (m : BinaryenModule) (e : ExportInfo) (i : nat)
    (f : FunctionInfo) :
  NoDup (info_name <$> functions m) →
  NoDup (exp_name <$> filter function_export (exports m)) →
  no_reused_name m →
  e ∈ exports m → function_export e →
  functions m !! i = Some f → exp_value e = info_name f →
  byName (parseWasmInfo m) (exp_name e) = Some i ∧
  byIndex (parseWasmInfo m) i = Some i ∧
  deref (parseWasmInfo m) (Some i) = Some (signature_of i f).
Proof.
  intros Hnames Hexports Hreuse Hin Hfun Hi Hval.
  unfold parseWasmInfo.
  set (r0 := add_functions _ 0 (functions m)).
  destruct (add_exports_objects (exports m) r0) as [Hobj Hidx].
  destruct (add_exports_byName (functions m) (exports m) r0) as [_ Hexp].
  { intros k g Hk. apply (add_functions_byName _ _ 0 k g); auto. }
  { exact Hreuse. }
  { exact Hexports. }
  split; [|split].
  - unfold byName. rewrite (Hexp e i f); auto.
  - unfold byIndex. rewrite Hidx. unfold r0.
    rewrite add_functions_byIndex by reflexivity. simpl.
    rewrite list_lookup_fmap, lookup_seq_lt by (eapply lookup_lt_Some; eassumption).
    reflexivity.
  - unfold deref. simpl. rewrite Hobj. unfold r0.
    rewrite add_functions_objects. simpl.
    rewrite list_lookup_imap, Hi. reflexivity.
Qed.

(** C8: a function exported under two names is to be found under both, with
    the signature that [funcsByIndex] has at its index.  Evaluated on
    [sample_module], where function 1 (internal name [b], parameter [i64])
    is exported as [x] and [y] after function 0 was exported under the name
    [b]: [funcsByName.x] and [funcsByName.y] are the object of function 0,
    with parameter [i32], and not the object at [funcsByIndex[1]]; an
    argument for [x], be it the Number 7 or the string ["7"], is converted
    as a Number, not as the BigInt that an [i64] parameter takes. *)
Theorem parseWasmInfo_alias_of_reused_name :
  let r := parseWasmInfo sample_module in
  byIndex r 1 = Some 1%nat ∧
  deref r (byIndex r 1) = Some {| index := 1; params := ["i64"]; results := [] |} ∧
  byName r "x" = Some 0%nat ∧
  byName r "y" = Some 0%nat ∧
  deref r (byName r "x") = Some {| index := 0; params := ["i32"]; results := [] |} ∧
  call_arguments sample_module
    {| invoke := Some "x";
       positional := [JString "m.wat"; JNumber (Number_of_ratio false 7 1)] |} "x"
  = inr [JNumber (S754_finite false 7881299347898368 (-50))] ∧
  call_arguments sample_module
    {| invoke := Some "x"; positional := [JString "m.wat"; JString "7"] |} "x"
  = inr [JNumber (S754_finite false 7881299347898368 (-50))].
Proof. repeat split; vm_compute; reflexivity. Qed.

(** ** Choosing what to run *)

Lemma includes_elem_of (l : list string) (name : string) :
  includes l name = true ↔ name ∈ l.
Proof.
  unfold includes. rewrite existsb_exists. split.
  - intros (x & Hin & Heq). apply String.eqb_eq in Heq as ->.
    apply list_elem_of_In. exact Hin.
  - intros Hin. exists name. split; [apply list_elem_of_In; exact Hin|].
    apply String.eqb_refl.
Qed.






(** The empty name is falsy: a sole export with the empty name is not
    invoked, and a request for the empty name, which is not exported, is not
    fatal; both times the [else] branch is taken, here without a WASI
    object. *)
Lemma select_empty_name_not_invoked :
  main {| invoke := None; positional := [JString "m.wasm"] |}
       {| wasiVersion := None; exportedFuncs := [""] |} = Uncaught TypeError ∧
  main {| invoke := Some ""; positional := [JString "m.wasm"] |}
       {| wasiVersion := None; exportedFuncs := ["f"; "g"] |} = Uncaught TypeError.
Proof. split; reflexivity. Qed.

(** * Further properties *)

(** ** The status wrappers on buffers inside and outside the memory *)

Lemma slice_length_64 (mem : list byte) (buf : Z) :
  length (slice mem buf (buf + 64)) = 64%nat →
  (0 <= buf ∧ buf + 64 <= Z.of_nat (length mem)) ∨ buf < 0.
Proof.
  unfold slice, relative_index. rewrite length_take, length_drop.
  destruct (Z.ltb_spec buf 0); [auto|].
  destruct (Z.ltb_spec (buf + 64) 0); [lia|]. intros Hlen. left. lia.
Qed.

(** A run of the shared body on a buffer that does not lie inside the
    memory throws after the host call. *)
Lemma filestat_shim_out_of_range (wasi : WasiImport) (stable : wasi_call) (buf : Z)
    (w : World) :
  ctx_memory w = true →
  ¬ (0 <= buf ∧ buf + 64 <= Z.of_nat (length (wasi stable (memory w)).2)) →
  ∃ e, (e = AssertionError ∨ e = RangeError) ∧
       filestat_shim wasi stable buf w
       = (inl e, {| memory := (wasi stable (memory w)).2;
                    ctx_memory := true;
                    calls := calls w ++ [stable] |}).
Proof.
  intros Hctx Hout.
  unfold filestat_shim, bind, read_mem, view_bytes, call_wasi, lift, mem_set, ret.
  rewrite Hctx. simpl.
  destruct (wasi stable (memory w)) as [res m1]. simpl in *.
  destruct (decide (length (slice m1 buf (buf + 64)) = 64%nat)) as [Hlen|Hlen].
  - rewrite filestat_relayout by assumption.
    apply slice_length_64 in Hlen as [?|Hneg]; [contradiction|].
    unfold typed_array_set at 1.
    destruct (Z.ltb_spec buf 0); [|lia].
    exists RangeError. simpl. rewrite Hctx. auto.
  - unfold decodeStruct. apply Nat.eqb_neq in Hlen. simpl size. rewrite Hlen. simpl.
    exists AssertionError. rewrite Hctx. auto.
Qed.

(** X1: once [ctx.memory] is set, that is in a run that went through the
    [else] branch, and for a buffer that lies inside the memory,
    [fd_filestat_get] and [path_filestat_get] each make one host call with
    their own arguments, return the host's status unchanged and leave the
    memory as the host left it, except for the 56 bytes at [buf]: these
    become bytes 0 to 16 of the host's 64-byte record, seven zero bytes and
    bytes 32 to 63 of the record. *)
Theorem status_wrappers_in_range (wasi : WasiImport) (fd flags path path_len buf : Z)
    (w : World) :
  let by_fd := Call_fd_filestat_get fd buf in
  let by_path := Call_path_filestat_get fd flags path path_len buf in
  ctx_memory w = true →
  0 <= buf →
  buf + 64 <= Z.of_nat (length (memory w)) →
  length (wasi by_fd (memory w)).2 = length (memory w) →
  length (wasi by_path (memory w)).2 = length (memory w) →
  fd_filestat_get wasi fd buf w
  = (inr (wasi by_fd (memory w)).1,
     {| memory := list_inserts (Z.to_nat buf) (relayout_at (wasi by_fd (memory w)).2 buf)
                               (wasi by_fd (memory w)).2;
        ctx_memory := true;
        calls := calls w ++ [by_fd] |}) ∧
  path_filestat_get wasi fd flags path path_len buf w
  = (inr (wasi by_path (memory w)).1,
     {| memory := list_inserts (Z.to_nat buf) (relayout_at (wasi by_path (memory w)).2 buf)
                               (wasi by_path (memory w)).2;
        ctx_memory := true;
        calls := calls w ++ [by_path] |}).
Proof.
  intros by_fd by_path Hctx H0 Hfit Hfd Hpath.
  rewrite fd_filestat_get_shim, path_filestat_get_shim.
  split; apply filestat_shim_run; assumption.
Qed.

Lemma host_storing_length (record : list byte) (c : wasi_call) (mem : list byte) :
  length (host_storing record c mem).2 = length mem.
Proof. destruct c; simpl; rewrite ?length_inserts; reflexivity. Qed.

Lemma status_wrappers_in_range_witness :
  fd_filestat_get (host_storing sample_record) 3 8 sample_world
  = (inr 0,
     {| memory := list_inserts 8
                    (relayout_at (list_inserts 8 sample_record (sentinel 80)) 8)
                    (list_inserts 8 sample_record (sentinel 80));
        ctx_memory := true;
        calls := [Call_fd_filestat_get 3 8] |}) ∧
  path_filestat_get (host_storing sample_record) 3 0 0 0 8 sample_world
  = (inr 0,
     {| memory := list_inserts 8
                    (relayout_at (list_inserts 8 sample_record (sentinel 80)) 8)
                    (list_inserts 8 sample_record (sentinel 80));
        ctx_memory := true;
        calls := [Call_path_filestat_get 3 0 0 0 8] |}).
Proof.
  apply (status_wrappers_in_range (host_storing sample_record) 3 0 0 0 8 sample_world).
  - reflexivity.
  - lia.
  - simpl. lia.
  - apply host_storing_length.
  - apply host_storing_length.
Defined.

(** X2: once [ctx.memory] is set, and for a buffer that does not lie inside
    the memory (a negative offset, or fewer than 64 bytes from [buf] to the
    end), both wrappers throw, an assertion error or a range error, after
    the host call was made: the host's status is lost and the memory is as
    the host left it. *)
Theorem status_wrappers_out_of_range (wasi : WasiImport) (fd flags path path_len buf : Z)
    (w : World) :
  let by_fd := Call_fd_filestat_get fd buf in
  let by_path := Call_path_filestat_get fd flags path path_len buf in
  ctx_memory w = true →
  length (wasi by_fd (memory w)).2 = length (memory w) →
  length (wasi by_path (memory w)).2 = length (memory w) →
  ¬ (0 <= buf ∧ buf + 64 <= Z.of_nat (length (memory w))) →
  (∃ e, (e = AssertionError ∨ e = RangeError) ∧
        fd_filestat_get wasi fd buf w
        = (inl e, {| memory := (wasi by_fd (memory w)).2;
                     ctx_memory := true;
                     calls := calls w ++ [by_fd] |})) ∧
  (∃ e, (e = AssertionError ∨ e = RangeError) ∧
        path_filestat_get wasi fd flags path path_len buf w
        = (inl e, {| memory := (wasi by_path (memory w)).2;
                     ctx_memory := true;
                     calls := calls w ++ [by_path] |})).
Proof.
  intros by_fd by_path Hctx Hfd Hpath Hout.
  rewrite fd_filestat_get_shim, path_filestat_get_shim.
  split; apply filestat_shim_out_of_range; try assumption;
    [rewrite Hfd|rewrite Hpath]; exact Hout.
Qed.

Lemma status_wrappers_out_of_range_witness :
  (∃ e, (e = AssertionError ∨ e = RangeError) ∧
        fd_filestat_get (host_storing sample_record) 3 20 sample_world
        = (inl e, {| memory := (host_storing sample_record (Call_fd_filestat_get 3 20)
                                  (memory sample_world)).2;
                     ctx_memory := true;
                     calls := calls sample_world ++ [Call_fd_filestat_get 3 20] |})) ∧
  (∃ e, (e = AssertionError ∨ e = RangeError) ∧
        path_filestat_get (host_storing sample_record) 3 0 0 0 20 sample_world
        = (inl e, {| memory := (host_storing sample_record
                                  (Call_path_filestat_get 3 0 0 0 20)
                                  (memory sample_world)).2;
                     ctx_memory := true;
                     calls := calls sample_world ++ [Call_path_filestat_get 3 0 0 0 20] |})).
Proof.
  apply (status_wrappers_out_of_range (host_storing sample_record) 3 0 0 0 20 sample_world).
  - reflexivity.
  - apply host_storing_length.
  - apply host_storing_length.
  - simpl. lia.
Defined.

Lemma take_drop_inserts (l k : list byte) (i : nat) :
  (i + length k ≤ length l)%nat →
  take (length k) (drop i (list_inserts i k l)) = k.
Proof.
  intros Hfit. apply list_eq. intros j.
  destruct (decide (j < length k)%nat) as [Hj|Hj].
  - rewrite lookup_take_lt, lookup_drop by assumption.
    rewrite list_lookup_inserts by lia. f_equal. lia.
  - rewrite lookup_take_ge by lia. symmetry. apply lookup_ge_None_2. lia.
Qed.

(** X3: once [ctx.memory] is set, and for a buffer inside the memory, the
    56-byte record that [fd_filestat_get] leaves at [buf] decodes, by the
    unstable schema, to the fields that the host's 64-byte record decodes to
    by the stable schema, with [nlink] replaced by the number 0: [dev],
    [ino], [ftype], [size], [atim], [mtim] and [ctim] are carried over. *)
Theorem fd_filestat_get_carries_fields (wasi : WasiImport) (fd buf : Z) (w : World)
    (props : list (string * value)) :
  let host_memory := (wasi (Call_fd_filestat_get fd buf) (memory w)).2 in
  ctx_memory w = true →
  0 <= buf →
  buf + 64 <= Z.of_nat (length (memory w)) →
  length host_memory = length (memory w) →
  decodeStruct wasi_snapshot_preview1_filestat_t (slice host_memory buf (buf + 64))
  = inr (VObject props) →
  decodeStruct wasi_unstable_filestat_t
    (slice (memory (fd_filestat_get wasi fd buf w).2) buf (buf + 56))
  = inr (VObject (prop_set "nlink" (VNumber 0) props)).
Proof.
  intros host_memory Hctx H0 Hfit Hlen Hdecode.
  rewrite fd_filestat_get_shim, filestat_shim_run by assumption. simpl.
  fold host_memory.
  assert (length (take 64 (drop (Z.to_nat buf) host_memory)) = 64%nat) as Hs
    by (rewrite length_take, length_drop; lia).
  assert (length (relayout_at host_memory buf) = 56%nat) as Hmod.
  { unfold relayout_at. cbv zeta.
    rewrite !length_app, length_replicate, length_drop, !length_take, length_drop. lia. }
  change 56 with (Z.of_nat 56). change 64 with (Z.of_nat 64) in Hdecode.
  rewrite slice_in_range in Hdecode by lia.
  rewrite slice_in_range by (rewrite ?length_inserts; lia).
  rewrite <- Hmod at 1. rewrite take_drop_inserts by lia.
  apply filestat_relayout_fields; assumption.
Qed.

Lemma fd_filestat_get_carries_fields_witness :
  decodeStruct wasi_unstable_filestat_t
    (slice (memory (fd_filestat_get (host_storing sample_record) 3 8 sample_world).2)
           8 (8 + 56))
  = inr (VObject
           (prop_set "nlink" (VNumber 0)
              [("dev", VObject [("lo", VNumber 1); ("hi", VNumber 0)]);
               ("ino", VObject [("lo", VNumber 2); ("hi", VNumber 0)]);
               ("ftype", VNumber 4);
               ("nlink", VObject [("lo", VNumber 1); ("hi", VNumber 0)]);
               ("size", VObject [("lo", VNumber 5); ("hi", VNumber 0)]);
               ("atim", VObject [("lo", VNumber 6); ("hi", VNumber 0)]);
               ("mtim", VObject [("lo", VNumber 7); ("hi", VNumber 0)]);
               ("ctim", VObject [("lo", VNumber 0x14131211);
                                 ("hi", VNumber 0x18171615)])])).
Proof.
  apply (fd_filestat_get_carries_fields (host_storing sample_record) 3 8 sample_world).
  - reflexivity.
  - lia.
  - simpl. lia.
  - apply host_storing_length.
  - vm_compute. reflexivity.
Defined.

(** X17: while [ctx.memory] is [undefined], as it is on the invoke path,
    where the assignment of the [else] branch is never run, both status
    wrappers throw a [TypeError] at their first statement: no call into the
    host is made and the memory is untouched.  [fd_seek], which does not
    read [ctx.memory], forwards its call as ever. *)
Theorem status_wrappers_without_memory (wasi : WasiImport)
    (fd flags path path_len buf offset result : Z) (w : World) :
  ctx_memory w = false →
  fd_filestat_get wasi fd buf w = (inl TypeError, w) ∧
  path_filestat_get wasi fd flags path path_len buf w = (inl TypeError, w) ∧
  calls (fd_seek wasi fd offset 0 result w).2 = calls w ++ [Call_fd_seek fd offset 1 result].
Proof.
  intros Hctx. rewrite fd_filestat_get_shim, path_filestat_get_shim.
  split; [|split]; try (apply filestat_shim_without_memory; assumption).
  reflexivity.
Qed.

Lemma status_wrappers_without_memory_witness :
  fd_filestat_get (host_storing sample_record) 3 8 (invoke_world (sentinel 80))
  = (inl TypeError, invoke_world (sentinel 80)) ∧
  path_filestat_get (host_storing sample_record) 3 0 0 0 8 (invoke_world (sentinel 80))
  = (inl TypeError, invoke_world (sentinel 80)) ∧
  calls (fd_seek (host_storing sample_record) 3 0 0 16 (invoke_world (sentinel 80))).2
  = calls (invoke_world (sentinel 80)) ++ [Call_fd_seek 3 0 1 16].
Proof.
  apply (status_wrappers_without_memory (host_storing sample_record) 3 0 0 0 8 0 16
           (invoke_world (sentinel 80))).
  reflexivity.
Defined.

(** ** The codec on any schema *)

(** Induction over a type that reaches the fields of a struct. *)
Lemma rtype_nested_ind (P : rtype → Prop) :
  (∀ bytes, P (NumberT bytes)) →
  (∀ t count, P t → P (Reserved t count)) →
  (∀ fields, Forall (λ field, P field.2) fields → P (Struct fields)) →
  ∀ t, P t.
Proof.
  intros HN HR HS.
  exact (fix IH (t : rtype) : P t :=
           match t with
           | NumberT bytes => HN bytes
           | Reserved t' count => HR t' count (IH t')
           | Struct fields =>
               HS fields
                 ((fix all (fs : list (string * rtype)) : Forall (λ field, P field.2) fs :=
                     match fs with
                     | [] => @List.Forall_nil _ _
                     | (key, ty) :: fs' =>
                         @List.Forall_cons _ (λ field, P field.2) (key, ty) fs'
                                           (IH ty) (all fs')
                     end) fields)
           end).
Qed.

Lemma size_Struct_cons (key : string) (ty : rtype) (fs : list (string * rtype)) :
  size (Struct ((key, ty) :: fs)) = (size ty + size (Struct fs))%nat.
Proof. reflexivity. Qed.

Lemma decode_fields_eq (fs : list (string * rtype)) (s : DecodeStream) :
  decode (Struct fs) s = decode_fields fs [] s.
Proof.
  cbn [decode]. generalize (@nil (string * value)). revert s.
  induction fs as [|[key ty] fs IH]; intros s res; [reflexivity|].
  cbn [decode_fields]. destruct (decode ty s) as [e|[val s']]; [reflexivity|]. apply IH.
Qed.

Lemma parse_fields_eq (fs : list (string * rtype)) (bs : list byte) :
  parse (Struct fs) bs = parse_fields fs [] bs.
Proof.
  cbn [parse]. generalize (@nil (string * value)). revert bs.
  induction fs as [|[key ty] fs IH]; intros bs res; [reflexivity|].
  cbn [parse_fields]. destruct (parse ty bs) as [val bs']. apply IH.
Qed.

Lemma encode_Struct_cons (key : string) (ty : rtype) (fs : list (string * rtype))
    (val : value) (e : EncodeBuffer) :
  encode (Struct ((key, ty) :: fs)) val e
  = match val with
    | VUndefined => inl TypeError
    | VNumber _ => cbind (encode ty VUndefined e) (encode (Struct fs) val)
    | VObject props => cbind (encode ty (prop_get key props) e) (encode (Struct fs) val)
    end.
Proof. destruct val; reflexivity. Qed.

Lemma serialize_Struct_cons (key : string) (ty : rtype) (fs : list (string * rtype))
    (val : value) :
  serialize (Struct ((key, ty) :: fs)) val
  = match val with
    | VUndefined => inl TypeError
    | VNumber _ =>
        cbind (serialize ty VUndefined) (fun bs =>
        cbind (serialize (Struct fs) val) (fun rest => inr (bs ++ rest)))
    | VObject props =>
        cbind (serialize ty (prop_get key props)) (fun bs =>
        cbind (serialize (Struct fs) val) (fun rest => inr (bs ++ rest)))
    end.
Proof. destruct val; reflexivity. Qed.

Lemma zero_reserved_Struct_cons (key : string) (ty : rtype) (fs : list (string * rtype))
    (bs : list byte) :
  zero_reserved (Struct ((key, ty) :: fs)) bs
  = zero_reserved ty bs ++ zero_reserved (Struct fs) (drop (size ty) bs).
Proof. reflexivity. Qed.

Lemma le_bytes_length (n : nat) (z : Z) : length (le_bytes n z) = n.
Proof. revert z. induction n as [|n IH]; intros z; simpl; [reflexivity|]. rewrite IH. reflexivity. Qed.

Lemma serialize_length (t : rtype) (v : value) (bs : list byte) :
  serialize t v = inr bs → length bs = size t.
Proof.
  revert v bs. induction t as [bytes|t' count _|fields IH] using rtype_nested_ind;
    intros v bs.
  - cbn [serialize size].
    destruct (ToNumber v) as [z|]; [destruct (_ || _); [intros [=]|]|];
      intros [= <-]; apply le_bytes_length.
  - simpl. intros [= <-]. apply length_replicate.
  - revert bs. induction IH as [|[key ty] fs IHty _ IHfs]; intros bs.
    + simpl. intros [= <-]. reflexivity.
    + rewrite serialize_Struct_cons, size_Struct_cons.
      destruct v as [|n|props]; [intros [=]| |].
      all: destruct (serialize ty _) as [e|b] eqn:Hty; [intros [=]|]; cbn [cbind];
        destruct (serialize (Struct fs) _) as [e|rest] eqn:Hfs; [intros [=]|]; cbn [cbind];
        intros [= <-]; rewrite length_app;
        apply IHty in Hty; specialize (IHfs rest eq_refl); cbn [snd] in *; lia.
Qed.

(** With room for [size t] bytes from the write position on, [encode] stores
    the bytes that [serialize] gives and moves the position past them, or
    throws what [serialize] gives. *)
Lemma encode_serialize (t : rtype) (v : value) (e : EncodeBuffer) :
  (pos e + size t ≤ length (buff e))%nat →
  encode t v e
  = cbind (serialize t v) (fun bs =>
      inr {| pos := (pos e + size t)%nat; buff := list_inserts (pos e) bs (buff e) |}).
Proof.
  revert v e. induction t as [bytes|t' count _|fields IH] using rtype_nested_ind;
    intros v e Hfit.
  - simpl in *. unfold writeUInt.
    apply Nat.ltb_ge in Hfit. rewrite Hfit.
    destruct (ToNumber v) as [z|]; simpl; [|reflexivity].
    destruct (_ || _); reflexivity.
  - simpl in *. unfold fill. apply Nat.ltb_ge in Hfit. rewrite Hfit. reflexivity.
  - revert e Hfit. induction IH as [|[key ty] fs IHty _ IHfs]; intros e Hfit.
    + simpl. destruct e as [p b]. simpl. rewrite Nat.add_0_r. reflexivity.
    + rewrite encode_Struct_cons, serialize_Struct_cons.
      rewrite size_Struct_cons in *.
      assert (∀ field_value,
                cbind (encode ty field_value e) (encode (Struct fs) v)
                = cbind (cbind (serialize ty field_value) (fun bs =>
                           cbind (serialize (Struct fs) v) (fun rest => inr (bs ++ rest))))
                        (fun bs => inr {| pos := (pos e + (size ty + size (Struct fs)))%nat;
                                          buff := list_inserts (pos e) bs (buff e) |}))
        as Hfield.
      { intros field_value. simpl in IHty. rewrite IHty by lia.
        destruct (serialize ty field_value) as [err|b] eqn:Hty; [reflexivity|].
        apply serialize_length in Hty. cbn [cbind].
        rewrite IHfs by (cbn [pos buff]; rewrite length_inserts; lia). cbn [pos buff].
        destruct (serialize (Struct fs) v) as [err|rest]; [reflexivity|]. cbn [cbind].
        rewrite list_inserts_app_l, Hty. do 2 f_equal; [lia|].
        f_equal. lia. }
      destruct v as [|n|props]; [reflexivity|apply Hfield|apply Hfield].
Qed.

Lemma parse_rest (t : rtype) (bs : list byte) : (parse t bs).2 = drop (size t) bs.
Proof.
  revert bs. induction t as [bytes|t' count _|fields IH] using rtype_nested_ind; intros bs;
    [reflexivity|reflexivity|].
  rewrite parse_fields_eq. generalize (@nil (string * value)). revert bs.
  induction IH as [|[key ty] fs IHty _ IHfs]; intros bs res; [reflexivity|].
  rewrite size_Struct_cons. cbn [parse_fields].
  cbn [snd] in IHty. specialize (IHty bs).
  destruct (parse ty bs) as [val bs']. cbn [snd] in IHty. rewrite IHty.
  rewrite IHfs, drop_drop. reflexivity.
Qed.

(** With [size t] bytes from the read position on, [decode] returns the
    value that [parse] reads off those bytes and moves the position past
    them. *)
Lemma decode_parse (t : rtype) (s : DecodeStream) :
  (d_pos s + size t ≤ length (d_buffer s))%nat →
  decode t s
  = inr ((parse t (drop (d_pos s) (d_buffer s))).1,
         {| d_buffer := d_buffer s; d_pos := (d_pos s + size t)%nat |}).
Proof.
  revert s. induction t as [bytes|t' count _|fields IH] using rtype_nested_ind;
    intros s Hfit.
  - simpl in *. unfold readUInt. apply Nat.ltb_ge in Hfit. rewrite Hfit. reflexivity.
  - reflexivity.
  - rewrite decode_fields_eq, parse_fields_eq. generalize (@nil (string * value)).
    revert s Hfit. induction IH as [|[key ty] fs IHty _ IHfs]; intros s Hfit res.
    + simpl. destruct s as [b p]. simpl. rewrite Nat.add_0_r. reflexivity.
    + rewrite size_Struct_cons in *. cbn [decode_fields parse_fields].
      simpl in IHty. rewrite IHty by lia.
      pose proof (parse_rest ty (drop (d_pos s) (d_buffer s))) as Hrest.
      destruct (parse ty (drop (d_pos s) (d_buffer s))) as [val bs']. simpl in *.
      subst bs'. rewrite IHfs by (simpl; lia). simpl.
      rewrite drop_drop. do 2 f_equal. f_equal. lia.
Qed.

Lemma decodeStruct_parse (T : rtype) (bs : list byte) :
  length bs = size T → decodeStruct T bs = inr (parse T bs).1.
Proof.
  intros Hlen. unfold decodeStruct. rewrite Hlen, Nat.eqb_refl.
  rewrite decode_parse by (simpl; lia). reflexivity.
Qed.

Lemma encodeStruct_serialize (T : rtype) (data : value) :
  encodeStruct T data = serialize T data.
Proof.
  unfold encodeStruct.
  assert (size T ≤ length (buff (new_EncodeBuffer (size T))))%nat as Hfit.
  { unfold new_EncodeBuffer. simpl. rewrite length_replicate.
    destruct (Nat.eqb_spec (size T) 0); lia. }
  rewrite encode_serialize by (unfold new_EncodeBuffer in *; cbn [pos buff] in *; lia).
  destruct (serialize T data) as [e|bs] eqn:Hbytes; [reflexivity|].
  apply serialize_length in Hbytes. cbn [cbind]. unfold buffer. cbn [pos buff].
  replace (pos (new_EncodeBuffer (size T)) + size T)%nat with (size T) by reflexivity.
  replace (pos (new_EncodeBuffer (size T))) with 0%nat by reflexivity.
  assert (take (size T) (list_inserts 0 bs (buff (new_EncodeBuffer (size T)))) = bs) as ->.
  { rewrite <- (take_drop (size T) (buff (new_EncodeBuffer (size T)))).
    rewrite list_inserts_0_r by (rewrite length_take; lia).
    apply take_app_length'. lia. }
  rewrite Hbytes, Nat.eqb_refl. reflexivity.
Qed.

(** Properties of objects. *)
Lemma prop_get_set_eq (key : string) (v : value) (props : list (string * value)) :
  prop_get key (prop_set key v props) = v.
Proof.
  induction props as [|[k w] props IH]; simpl.
  - rewrite String.eqb_refl. reflexivity.
  - destruct (String.eqb_spec k key) as [->|Hne]; simpl.
    + rewrite String.eqb_refl. reflexivity.
    + apply String.eqb_neq in Hne. rewrite Hne. exact IH.
Qed.

Lemma prop_get_set_ne (key key' : string) (v : value) (props : list (string * value)) :
  key ≠ key' → prop_get key' (prop_set key v props) = prop_get key' props.
Proof.
  intros Hne. induction props as [|[k w] props IH]; simpl.
  - apply String.eqb_neq in Hne. rewrite Hne. reflexivity.
  - destruct (String.eqb_spec k key) as [->|Hk]; simpl.
    + apply String.eqb_neq in Hne. rewrite Hne. reflexivity.
    + rewrite IH. reflexivity.
Qed.

Lemma prop_set_fresh (key : string) (v : value) (props : list (string * value)) :
  key ∉ (props.*1) → prop_set key v props = props ++ [(key, v)].
Proof.
  induction props as [|[k w] props IH]; simpl; intros Hfresh; [reflexivity|].
  apply not_elem_of_cons in Hfresh as [Hne Hfresh].
  destruct (String.eqb_spec k key) as [->|_]; [contradiction|].
  rewrite IH by assumption. reflexivity.
Qed.

Lemma prop_get_app_fresh (key : string) (v : value) (done rest : list (string * value)) :
  key ∉ (done.*1) → prop_get key (done ++ (key, v) :: rest) = v.
Proof.
  induction done as [|[k w] done IH]; simpl; intros Hfresh.
  - rewrite String.eqb_refl. reflexivity.
  - apply not_elem_of_cons in Hfresh as [Hne Hfresh].
    destruct (String.eqb_spec k key) as [->|_]; [contradiction|]. apply IH, Hfresh.
Qed.

Lemma distinct_keys_Struct_cons (key : string) (ty : rtype) (fs : list (string * rtype)) :
  distinct_keys (Struct ((key, ty) :: fs))
  ↔ (key ∉ fs.*1) ∧ distinct_keys ty ∧ distinct_keys (Struct fs).
Proof.
  cbn [distinct_keys]. rewrite fmap_cons, NoDup_cons. cbn [fst]. tauto.
Qed.

(** The fields of a struct, read off [bs] into an object that has none of
    them yet, are found in the object, and serializing any object that
    agrees with it on these fields gives back the bytes, reserved spans
    zeroed. *)
Lemma serialize_parse_fields (fs : list (string * rtype)) :
  Forall (λ field, distinct_keys field.2 → ∀ bs, (size field.2 ≤ length bs)%nat →
                   serialize field.2 (parse field.2 bs).1
                   = inr (zero_reserved field.2 bs)) fs →
  distinct_keys (Struct fs) →
  ∀ res bs,
    (size (Struct fs) ≤ length bs)%nat →
    (∀ k, k ∈ (fs.*1) → prop_get k res = VUndefined) →
    ∃ res', (parse_fields fs res bs).1 = VObject res' ∧
            (∀ k, k ∉ (fs.*1) → prop_get k res' = prop_get k res) ∧
            ∀ full, (∀ k, k ∈ (fs.*1) → prop_get k full = prop_get k res') →
                    serialize (Struct fs) (VObject full)
                    = inr (zero_reserved (Struct fs) bs).
Proof.
  induction 1 as [|[key ty] fs IHty _ IHfs]; intros Hkeys res bs Hfit Hfresh.
  - exists res. repeat split; auto.
  - apply distinct_keys_Struct_cons in Hkeys as (Hkey & Hty & Hfs).
    rewrite size_Struct_cons in Hfit. cbn [snd] in IHty.
    specialize (IHty Hty bs ltac:(lia)).
    pose proof (parse_rest ty bs) as Hrest.
    cbn [parse_fields]. destruct (parse ty bs) as [val bs']. cbn [fst snd] in *. subst bs'.
    set (res1 := match val with VUndefined => res | _ => prop_set key val res end).
    assert (prop_get key res1 = val) as Hval.
    { subst res1. destruct val; [apply Hfresh, list_elem_of_here| |]; apply prop_get_set_eq. }
    assert (∀ k, k ≠ key → prop_get k res1 = prop_get k res) as Hother.
    { intros k Hne. subst res1. destruct val; [reflexivity| |];
        apply prop_get_set_ne; congruence. }
    destruct (IHfs Hfs res1 (drop (size ty) bs)) as (res' & Hparse & Hkeep & Hser).
    { rewrite length_drop. lia. }
    { intros k Hk. rewrite Hother by (intros ->; contradiction).
      apply Hfresh, list_elem_of_further, Hk. }
    exists res'. split; [exact Hparse|]. split.
    + intros k Hk. rewrite fmap_cons in Hk. apply not_elem_of_cons in Hk as [Hne Hk].
      rewrite Hkeep by assumption. apply Hother, Hne.
    + intros full Hfull.
      rewrite serialize_Struct_cons, zero_reserved_Struct_cons.
      rewrite (Hfull key) by apply list_elem_of_here.
      rewrite (Hkeep key Hkey), Hval, IHty. cbn [cbind].
      rewrite Hser; [reflexivity|].
      intros k Hk. apply Hfull, list_elem_of_further, Hk.
Qed.

(** Serializing what was read off [bs] gives back the first [size t] bytes
    of [bs] with the reserved spans zeroed. *)
Lemma serialize_parse (t : rtype) :
  distinct_keys t → ∀ bs, (size t ≤ length bs)%nat →
  serialize t (parse t bs).1 = inr (zero_reserved t bs).
Proof.
  induction t as [bytes|t' count _|fields IH] using rtype_nested_ind; intros Hkeys bs Hfit.
  - cbn [size] in Hfit. cbn [parse serialize zero_reserved fst ToNumber].
    pose proof (le_value_range (take bytes bs)) as Hrange.
    rewrite length_take_le in Hrange by assumption.
    replace (2 ^ (8 * Z.of_nat bytes) - 1 <? le_value (take bytes bs)) with false
      by (symmetry; apply Z.ltb_ge; lia).
    replace (le_value (take bytes bs) <? 0) with false by (symmetry; apply Z.ltb_ge; lia).
    cbn [orb]. rewrite <- (length_take_le bs bytes) at 1 by assumption.
    rewrite le_bytes_le_value. reflexivity.
  - reflexivity.
  - rewrite parse_fields_eq.
    destruct (serialize_parse_fields fields IH Hkeys [] bs Hfit) as (res' & Hparse & _ & Hser).
    { reflexivity. }
    rewrite Hparse. apply Hser. reflexivity.
Qed.

Lemma byte_to_of_Z (z : Z) : byte_to_Z (byte_of_Z z) = z mod 2 ^ 8.
Proof.
  unfold byte_of_Z, byte_to_Z. change 255 with (Z.ones 8). rewrite Z.land_ones by lia.
  pose proof (Z.mod_pos_bound z (2 ^ 8) ltac:(lia)) as Hmod.
  destruct (Byte.of_N (Z.to_N (z mod 2 ^ 8))) as [b|] eqn:Hb.
  - apply Byte.to_of_N in Hb. simpl. rewrite Hb. lia.
  - apply Byte.of_N_None_iff in Hb. lia.
Qed.

(** Reading back the bytes of an integer that fits the width gives the
    integer. *)
Lemma le_value_le_bytes (n : nat) (z : Z) :
  0 <= z < 2 ^ (8 * Z.of_nat n) → le_value (le_bytes n z) = z.
Proof.
  revert z. induction n as [|n IH]; intros z Hz.
  - simpl in *. lia.
  - cbn [le_bytes le_value]. rewrite byte_to_of_Z, Z.shiftr_div_pow2 by lia.
    replace (8 * Z.of_nat (S n)) with (8 + 8 * Z.of_nat n) in Hz by lia.
    rewrite Z.pow_add_r in Hz by lia.
    rewrite IH.
    + pose proof (Z.div_mod z (2 ^ 8) ltac:(lia)). lia.
    + split; [apply Z.div_pos; lia|]. apply Z.div_lt_upper_bound; lia.
Qed.

Lemma conforms_Struct_nil (v : value) : conforms (Struct []) v ↔ v = VObject [].
Proof.
  cbn [conforms]. split.
  - intros (props & -> & ->). reflexivity.
  - intros ->. exists []. auto.
Qed.

Lemma conforms_Struct_cons (key : string) (ty : rtype) (fs : list (string * rtype))
    (v : value) :
  conforms (Struct ((key, ty) :: fs)) v
  ↔ match ty with
    | Reserved _ _ => conforms (Struct fs) v
    | _ => ∃ v' props', v = VObject ((key, v') :: props') ∧ conforms ty v' ∧
                        conforms (Struct fs) (VObject props')
    end.
Proof.
  cbn [conforms]. destruct ty as [bytes|t' count|fields]; [|reflexivity|]; split.
  - intros (props & -> & Hfields). destruct props as [|[key' v'] props']; [contradiction|].
    destruct Hfields as (-> & Hv & Hrest). exists v', props'. eauto.
  - intros (v' & props' & -> & Hv & (props0 & [= <-] & Hrest)).
    exists ((key, v') :: props'). auto.
  - intros (props & -> & Hfields). destruct props as [|[key' v'] props']; [contradiction|].
    destruct Hfields as (-> & Hv & Hrest). exists v', props'. eauto.
  - intros (v' & props' & -> & Hv & (props0 & [= <-] & Hrest)).
    exists ((key, v') :: props'). auto.
Qed.

Lemma conforms_Struct_object (fs : list (string * rtype)) (v : value) :
  conforms (Struct fs) v → ∃ props, v = VObject props.
Proof. cbn [conforms]. intros (props & -> & _). eauto. Qed.

(** The fields of a conforming object, serialized and read back into the
    object made of the fields before them, give the whole object. *)
Lemma parse_serialize_fields (fs : list (string * rtype)) :
  Forall (λ field, distinct_keys field.2 → ∀ v, conforms field.2 v →
                   ∃ bs, serialize field.2 v = inr bs ∧
                         ∀ rest, parse field.2 (bs ++ rest) = (v, rest)) fs →
  distinct_keys (Struct fs) →
  ∀ done props,
    conforms (Struct fs) (VObject props) →
    (∀ k, k ∈ fs.*1 → k ∉ done.*1) →
    ∃ bs, serialize (Struct fs) (VObject (done ++ props)) = inr bs ∧
          ∀ rest, parse_fields fs done (bs ++ rest) = (VObject (done ++ props), rest).
Proof.
  induction 1 as [|[key ty] fs IHty _ IHfs]; intros Hkeys done props Hconf Hfresh.
  - apply conforms_Struct_nil in Hconf as [= ->]. exists []. rewrite app_nil_r. auto.
  - apply distinct_keys_Struct_cons in Hkeys as (Hkey & Hty & Hfs).
    apply conforms_Struct_cons in Hconf. cbn [snd] in IHty.
    assert (∀ k, k ∈ fs.*1 → k ∉ done.*1) as Hfresh'
      by (intros k Hk; apply Hfresh, list_elem_of_further, Hk).
    assert (∀ v' props',
              v' ≠ VUndefined → conforms ty v' → conforms (Struct fs) (VObject props') →
              ∃ bs, serialize (Struct ((key, ty) :: fs))
                      (VObject (done ++ (key, v') :: props')) = inr bs ∧
                    ∀ rest, parse_fields ((key, ty) :: fs) done (bs ++ rest)
                            = (VObject (done ++ (key, v') :: props'), rest)) as Hfield.
    { intros v' props' Hdefined Hv Hrest.
      destruct (IHty Hty v' Hv) as (bs1 & Hser1 & Hparse1).
      destruct (IHfs Hfs (done ++ [(key, v')]) props' Hrest) as (bs2 & Hser2 & Hparse2).
      { intros k Hk. rewrite fmap_app. intros [Hin|Hin]%elem_of_app.
        - exact (Hfresh' k Hk Hin).
        - apply list_elem_of_singleton in Hin. simpl in Hin. subst k. contradiction. }
      rewrite <- app_assoc in Hser2, Hparse2. cbn [app] in Hser2, Hparse2.
      exists (bs1 ++ bs2). split.
      - rewrite serialize_Struct_cons.
        rewrite prop_get_app_fresh by (apply Hfresh, list_elem_of_here).
        rewrite Hser1. cbn [cbind]. rewrite Hser2. reflexivity.
      - intros rest. cbn [parse_fields]. rewrite <- app_assoc, Hparse1.
        rewrite prop_set_fresh by (apply Hfresh, list_elem_of_here).
        destruct v'; [contradiction| |]; apply Hparse2. }
    destruct ty as [bytes|t' count|fields].
    + destruct Hconf as (v' & props' & [= ->] & Hv & Hrest).
      apply Hfield; [|exact Hv|exact Hrest]. destruct Hv as (z & -> & _). discriminate.
    + destruct (IHfs Hfs done props Hconf Hfresh') as (bs2 & Hser2 & Hparse2).
      exists (replicate (size t' * count) x00 ++ bs2). split.
      * rewrite serialize_Struct_cons, Hser2. reflexivity.
      * intros rest. cbn [parse_fields parse]. rewrite <- app_assoc.
        rewrite drop_app_length' by (rewrite length_replicate; reflexivity).
        apply Hparse2.
    + destruct Hconf as (v' & props' & [= ->] & Hv & Hrest).
      apply Hfield; [|exact Hv|exact Hrest].
      destruct (conforms_Struct_object _ _ Hv) as [props0 ->]. discriminate.
Qed.

(** A conforming value is serialized, and reading the bytes back gives the
    value. *)
Lemma parse_serialize (t : rtype) :
  distinct_keys t → ∀ v, conforms t v →
  ∃ bs, serialize t v = inr bs ∧ ∀ rest, parse t (bs ++ rest) = (v, rest).
Proof.
  induction t as [bytes|t' count _|fields IH] using rtype_nested_ind; intros Hkeys v Hconf.
  - destruct Hconf as (z & -> & Hz). exists (le_bytes bytes z). split.
    + cbn [serialize ToNumber].
      replace (2 ^ (8 * Z.of_nat bytes) - 1 <? z) with false
        by (symmetry; apply Z.ltb_ge; lia).
      replace (z <? 0) with false by (symmetry; apply Z.ltb_ge; lia). reflexivity.
    + intros rest. cbn [parse].
      rewrite take_app_length', drop_app_length' by (rewrite le_bytes_length; reflexivity).
      rewrite le_value_le_bytes by assumption. reflexivity.
  - cbn [conforms] in Hconf. subst v. exists (replicate (size t' * count) x00).
    split; [reflexivity|]. intros rest. cbn [parse].
    rewrite drop_app_length' by (rewrite length_replicate; reflexivity). reflexivity.
  - destruct (conforms_Struct_object _ _ Hconf) as [props ->].
    destruct (parse_serialize_fields fields IH Hkeys [] props Hconf) as (bs & Hser & Hparse).
    { intros k _ Hin. apply elem_of_nil in Hin as []. }
    exists bs. split; [exact Hser|]. intros rest. rewrite parse_fields_eq. apply Hparse.
Qed.

(** What is read off enough bytes has the shape of the schema. *)
Lemma parse_conforms_fields (fs : list (string * rtype)) :
  Forall (λ field, distinct_keys field.2 → ∀ bs, conforms field.2 (parse field.2 bs).1) fs →
  distinct_keys (Struct fs) →
  ∀ done bs,
    (∀ k, k ∈ fs.*1 → k ∉ done.*1) →
    ∃ props, (parse_fields fs done bs).1 = VObject (done ++ props) ∧
             conforms (Struct fs) (VObject props).
Proof.
  induction 1 as [|[key ty] fs IHty _ IHfs]; intros Hkeys done bs Hfresh.
  - exists []. rewrite app_nil_r. split; [reflexivity|]. apply conforms_Struct_nil. reflexivity.
  - apply distinct_keys_Struct_cons in Hkeys as (Hkey & Hty & Hfs).
    cbn [snd] in IHty. specialize (IHty Hty bs).
    assert (∀ k, k ∈ fs.*1 → k ∉ done.*1) as Hfresh'
      by (intros k Hk; apply Hfresh, list_elem_of_further, Hk).
    cbn [parse_fields]. destruct (parse ty bs) as [val bs'] eqn:Hparse. cbn [fst] in IHty.
    assert (val ≠ VUndefined →
            ∃ props, (parse_fields fs (prop_set key val done) bs').1
                     = VObject (done ++ (key, val) :: props) ∧
                     conforms (Struct fs) (VObject props)) as Hset.
    { intros _. rewrite prop_set_fresh by (apply Hfresh, list_elem_of_here).
      destruct (IHfs Hfs (done ++ [(key, val)]) bs') as (props & Hrun & Hconf).
      { intros k Hk. rewrite fmap_app. intros [Hin|Hin]%elem_of_app.
        - exact (Hfresh' k Hk Hin).
        - apply list_elem_of_singleton in Hin. simpl in Hin. subst k. contradiction. }
      rewrite <- app_assoc in Hrun. exists props. auto. }
    destruct ty as [bytes|t' count|fields].
    + destruct IHty as (z & -> & Hz).
      destruct Hset as (props & Hrun & Hconf); [discriminate|].
      exists ((key, VNumber z) :: props). split; [exact Hrun|].
      apply conforms_Struct_cons. exists (VNumber z), props.
      split; [reflexivity|]. split; [exists z; auto | exact Hconf].
    + cbn [conforms] in IHty. subst val.
      destruct (IHfs Hfs done bs' Hfresh') as (props & Hrun & Hconf).
      exists props. split; [exact Hrun|]. apply conforms_Struct_cons. exact Hconf.
    + destruct (conforms_Struct_object _ _ IHty) as [props0 ->].
      destruct Hset as (props & Hrun & Hconf); [discriminate|].
      exists ((key, VObject props0) :: props). split; [exact Hrun|].
      apply conforms_Struct_cons. exists (VObject props0), props. auto.
Qed.

Lemma parse_conforms (t : rtype) :
  distinct_keys t → ∀ bs, conforms t (parse t bs).1.
Proof.
  induction t as [bytes|t' count _|fields IH] using rtype_nested_ind; intros Hkeys bs.
  - cbn [parse fst conforms]. eexists. split; [reflexivity|].
    pose proof (le_value_range (take bytes bs)) as Hrange.
    split; [lia|]. eapply Z.lt_le_trans; [apply Hrange|].
    apply Z.pow_le_mono_r; [lia|]. rewrite length_take. lia.
  - reflexivity.
  - rewrite parse_fields_eq.
    destruct (parse_conforms_fields fields IH Hkeys [] bs) as (props & -> & Hconf).
    { intros k _ Hin. apply elem_of_nil in Hin as []. }
    exact Hconf.
Qed.

Lemma serialize_errors (t : rtype) (v : value) (e : exn) :
  serialize t v = inl e → e = TypeError ∨ e = RangeError.
Proof.
  revert v. induction t as [bytes|t' count _|fields IH] using rtype_nested_ind; intros v.
  - cbn [serialize]. destruct (ToNumber v) as [z|]; [|intros [=]].
    destruct (_ || _); intros [=]. auto.
  - intros [=].
  - induction IH as [|[key ty] fs IHty _ IHfs]; [intros [=]|].
    rewrite serialize_Struct_cons. cbn [snd] in IHty.
    destruct v as [|n|props]; [intros [= <-]; auto| |].
    all: destruct (serialize ty _) as [e1|b] eqn:Hty;
      [intros [= ->]; eapply IHty, Hty|]; cbn [cbind];
      destruct (serialize (Struct fs) _) as [e2|rest];
      [intros [= ->]; apply IHfs; reflexivity|intros [=]].
Qed.

Lemma filestat_schemas_distinct_keys :
  distinct_keys wasi_snapshot_preview1_filestat_t ∧ distinct_keys wasi_unstable_filestat_t.
Proof.
  split; cbn; repeat split; apply (bool_decide_unpack _); vm_compute; exact I.
Qed.

(** X4: [decodeStruct] throws the assertion error for every buffer whose
    length is not [T.size()], and for every buffer of that length it
    returns a value of the schema's shape: no read runs past the buffer. *)
Theorem decodeStruct_checks_length (T : rtype) (buff : list byte) :
  distinct_keys T →
  (length buff ≠ size T → decodeStruct T buff = inl AssertionError) ∧
  (length buff = size T → ∃ v, decodeStruct T buff = inr v ∧ conforms T v).
Proof.
  intros Hkeys. split.
  - intros Hlen. unfold decodeStruct. apply Nat.eqb_neq in Hlen. rewrite Hlen. reflexivity.
  - intros Hlen. rewrite decodeStruct_parse by assumption.
    eexists. split; [reflexivity|]. apply parse_conforms, Hkeys.
Qed.

Lemma decodeStruct_checks_length_witness :
  decodeStruct wasi_unstable_filestat_t sample_record = inl AssertionError ∧
  ∃ v, decodeStruct wasi_snapshot_preview1_filestat_t sample_record = inr v ∧
       conforms wasi_snapshot_preview1_filestat_t v.
Proof.
  split.
  - apply (decodeStruct_checks_length wasi_unstable_filestat_t sample_record).
    + apply filestat_schemas_distinct_keys.
    + simpl. lia.
  - apply (decodeStruct_checks_length wasi_snapshot_preview1_filestat_t sample_record).
    + apply filestat_schemas_distinct_keys.
    + reflexivity.
Defined.

Lemma encodable_Struct_cons (key : string) (ty : rtype) (fs : list (string * rtype))
    (val : value) :
  encodable (Struct ((key, ty) :: fs)) val
  ↔ match val with
    | VUndefined => False
    | VNumber _ => encodable ty VUndefined
    | VObject props => encodable ty (prop_get key props)
    end ∧ encodable (Struct fs) val.
Proof. reflexivity. Qed.

(** The field-by-field bytes exist exactly for the values that [encodable]
    describes. *)
Lemma serialize_encodable (t : rtype) (v : value) :
  encodable t v ↔ ∃ bs, serialize t v = inr bs.
Proof.
  revert v. induction t as [bytes|t' count _|fields IH] using rtype_nested_ind; intros v.
  - cbn [encodable serialize]. destruct (ToNumber v) as [z|]; [|split; eauto].
    destruct (Z.ltb_spec (2 ^ (8 * Z.of_nat bytes) - 1) z);
      destruct (Z.ltb_spec z 0); simpl; split.
    all: try (intros [bs Hbs]; first [discriminate Hbs | lia]).
    all: intros Hz; first [lia | eauto].
  - cbn [encodable serialize]. split; eauto.
  - induction IH as [|[key ty] fs Hty _ IHfs].
    + simpl. split; eauto.
    + rewrite encodable_Struct_cons, serialize_Struct_cons. cbn [snd] in Hty.
      assert (∀ w, encodable ty w ∧ encodable (Struct fs) v
                   ↔ ∃ bs, cbind (serialize ty w) (fun bs =>
                             cbind (serialize (Struct fs) v)
                                   (fun rest => inr (bs ++ rest))) = inr bs) as Hfield.
      { intros w. rewrite (Hty w), IHfs. split.
        - intros [[bs ->] [rest ->]]. cbn [cbind]. eauto.
        - destruct (serialize ty w) as [e|bs]; cbn [cbind]; [intros [? [=]]|].
          destruct (serialize (Struct fs) v) as [e|rest]; cbn [cbind]; [intros [? [=]]|].
          intros _. split; eauto. }
      destruct v as [|n|props]; [|apply Hfield..].
      split; [intros [[] _]|intros [bs [=]]].
Qed.

(** X5: [encodeStruct] returns, and then exactly [T.size()] bytes, for the
    values that [encode] takes: those that give every number field a number
    in its range, or something that is not a number, and no struct with
    fields an [undefined].  For any other value it throws a type error or a
    range error.  So neither its own assertion nor the end of its buffer is
    ever the cause of an error, also for a schema of size 0, where the
    buffer has 65536 bytes; what it returns or throws is what going through
    the fields one by one, without a buffer, gives. *)
Theorem encodeStruct_outcomes (T : rtype) (data : value) :
  (encodable T data ↔ ∃ bs, encodeStruct T data = inr bs) ∧
  (∀ bs, encodeStruct T data = inr bs → length bs = size T) ∧
  (∀ e, encodeStruct T data = inl e → e = TypeError ∨ e = RangeError) ∧
  encodeStruct T data = serialize T data.
Proof.
  rewrite encodeStruct_serialize.
  split; [apply serialize_encodable|].
  split; [apply serialize_length|].
  split; [apply serialize_errors|reflexivity].
Qed.

(** X6: encoding what [decodeStruct] returned for a buffer of [T.size()]
    bytes, by the same schema, gives the buffer back with its reserved spans
    set to zero. *)
Theorem encodeStruct_of_decodeStruct (T : rtype) (buff : list byte) :
  distinct_keys T →
  length buff = size T →
  cbind (decodeStruct T buff) (encodeStruct T) = inr (zero_reserved T buff).
Proof.
  intros Hkeys Hlen. rewrite decodeStruct_parse by assumption. cbn [cbind].
  rewrite encodeStruct_serialize. apply serialize_parse; [assumption|lia].
Qed.

Lemma encodeStruct_of_decodeStruct_witness :
  cbind (decodeStruct wasi_snapshot_preview1_filestat_t (sentinel 64))
        (encodeStruct wasi_snapshot_preview1_filestat_t)
  = inr (sentinel 17 ++ replicate 7 x00 ++ sentinel 40).
Proof.
  apply (encodeStruct_of_decodeStruct wasi_snapshot_preview1_filestat_t (sentinel 64)).
  - apply filestat_schemas_distinct_keys.
  - reflexivity.
Defined.

(** X7: a value of the schema's shape is encoded without error, and
    decoding the bytes gives the value back. *)
Theorem decodeStruct_of_encodeStruct (T : rtype) (data : value) :
  distinct_keys T →
  conforms T data →
  ∃ bs, encodeStruct T data = inr bs ∧ length bs = size T ∧ decodeStruct T bs = inr data.
Proof.
  intros Hkeys Hconf.
  destruct (parse_serialize T Hkeys data Hconf) as (bs & Hser & Hparse).
  exists bs. rewrite encodeStruct_serialize.
  pose proof (serialize_length T data bs Hser) as Hlen.
  split; [exact Hser|]. split; [exact Hlen|].
  rewrite decodeStruct_parse by assumption.
  specialize (Hparse []). rewrite app_nil_r in Hparse. rewrite Hparse. reflexivity.
Qed.

Lemma decodeStruct_of_encodeStruct_witness :
  ∃ bs, encodeStruct uint64 (VObject [("lo", VNumber 1); ("hi", VNumber 0xFFFFFFFF)])
        = inr bs ∧
        length bs = size uint64 ∧
        decodeStruct uint64 bs
        = inr (VObject [("lo", VNumber 1); ("hi", VNumber 0xFFFFFFFF)]).
Proof.
  apply (decodeStruct_of_encodeStruct uint64).
  - cbn. repeat split. apply (bool_decide_unpack _). vm_compute. exact I.
  - apply conforms_Struct_cons. eexists _, _. split; [reflexivity|]. split.
    + exists 1. split; [reflexivity|]. simpl. lia.
    + apply conforms_Struct_cons. eexists _, _. split; [reflexivity|]. split.
      * exists 0xFFFFFFFF. split; [reflexivity|]. simpl. lia.
      * apply conforms_Struct_nil. reflexivity.
Defined.

(** ** Argument conversion, position by position *)

(** X8: the in-place loop treats every position by itself.  When it
    returns, the element at every position [k] below the number of
    parameters is the conversion, by the [k]-th parameter type, of the
    [k]-th argument ([undefined] when there is none), and the elements from
    the number of parameters on are the arguments as they were.  When it
    throws, it throws what the conversion at the first failing position
    throws. *)
Theorem coerce_position_by_position (params : list string) (args : list jsval) :
  match coerce params args with
  | inr out =>
      (∀ k ty, params !! k = Some ty →
               converted ty (args !! k) = inr (array_get out k)) ∧
      (∀ j, (length params ≤ j)%nat → out !! j = args !! j)
  | inl e =>
      ∃ k ty, params !! k = Some ty ∧
              converted ty (args !! k) = inl e ∧
              ∀ k' ty', (k' < k)%nat → params !! k' = Some ty' →
                        ∃ v, converted ty' (args !! k') = inr v
  end.
Proof.
  pose proof (coerce_positions params args) as Hrun.
  destruct (coerce params args) as [e|out].
  - exact Hrun.
  - destruct Hrun as (Hat & Hrest & _). auto.
Qed.

(** X9: the conversion throws only at an [i64] parameter: a type error when
    its argument is missing, a syntax error when its argument is a string
    that is not a BigInt literal, a range error when its argument is a
    Number that is not an integer.  Without an [i64] parameter the
    conversion always returns. *)
Theorem coerce_throws_only_at_i64 (params : list string) (args : list jsval) :
  (∀ e, coerce params args = inl e →
        ∃ k, params !! k = Some "i64"%string ∧
             ((array_get args k = JUndefined ∧ e = TypeError) ∨
              (∃ s, args !! k = Some (JString s) ∧ StringToBigInt s = None ∧
                    e = SyntaxError) ∨
              (∃ x, args !! k = Some (JNumber x) ∧ integral_value x = None ∧
                    e = RangeError))) ∧
  ("i64"%string ∉ params → ∃ out, coerce params args = inr out).
Proof.
  split.
  - intros e Hrun. apply coerce_throws_at_i64 in Hrun as (k & Hk & Hbig).
    exists k. split; [exact Hk|].
    apply BigInt_throws in Hbig as [[Hv ->] | [(s & Hv & Hs & ->) | (x & Hv & Hx & ->)]].
    + auto.
    + right. left. exists s. split; [|auto].
      unfold array_get in Hv. destruct (args !! k); simpl in Hv; congruence.
    + right. right. exists x. split; [|auto].
      unfold array_get in Hv. destruct (args !! k); simpl in Hv; congruence.
  - intros Hnone. destruct (coerce params args) as [e|out] eqn:Hrun; [|eauto].
    apply coerce_throws_at_i64 in Hrun as (k & Hk & _).
    exfalso. apply Hnone. eapply list_elem_of_lookup_2, Hk.
Qed.

Lemma coerce_throws_only_at_i64_witness :
  (∃ k, ["i32"; "i64"] !! k = Some "i64"%string ∧
        ((array_get [JNumber (Number_of_ratio false 7 1); JNumber (Number_of_ratio false 3 2)] k
          = JUndefined ∧ RangeError = TypeError) ∨
         (∃ s, [JNumber (Number_of_ratio false 7 1); JNumber (Number_of_ratio false 3 2)] !! k
               = Some (JString s) ∧ StringToBigInt s = None ∧ RangeError = SyntaxError) ∨
         (∃ x, [JNumber (Number_of_ratio false 7 1); JNumber (Number_of_ratio false 3 2)] !! k
               = Some (JNumber x) ∧ integral_value x = None ∧ RangeError = RangeError))) ∧
  ∃ out, coerce ["i32"; "f64"; "v128"] [JString "x"] = inr out.
Proof.
  split.
  - apply (coerce_throws_only_at_i64 ["i32"; "i64"]
             [JNumber (Number_of_ratio false 7 1); JNumber (Number_of_ratio false 3 2)]).
    vm_compute. reflexivity.
  - apply (coerce_throws_only_at_i64 ["i32"; "f64"; "v128"] [JString "x"]).
    intros Hin. apply (bool_decide_pack _) in Hin. vm_compute in Hin. exact Hin.
Defined.

(** ** What [parseWasmInfo] builds for any module *)

Lemma parseWasmInfo_objects (m : BinaryenModule) :
  objects (parseWasmInfo m) = imap signature_of (functions m) ∧
  funcsByIndex (parseWasmInfo m) = Some <$> seq 0 (length (functions m)).
Proof.
  unfold parseWasmInfo.
  set (r0 := add_functions _ 0 (functions m)).
  destruct (add_exports_objects (exports m) r0) as [-> ->]. unfold r0.
  rewrite add_functions_objects, add_functions_byIndex by reflexivity.
  split; reflexivity.
Qed.

(** X10: whatever the names and the exports of the module are,
    [funcsByIndex] has one entry for each function, in order, and the entry
    at index [i] is an object of its own that holds [i] and the decoded
    parameter and result types of the function at [i]. *)
Theorem funcsByIndex_by_position (m : BinaryenModule) :
  length (funcsByIndex (parseWasmInfo m)) = length (functions m) ∧
  ∀ i f, functions m !! i = Some f →
         byIndex (parseWasmInfo m) i = Some i ∧
         deref (parseWasmInfo m) (byIndex (parseWasmInfo m) i)
         = Some {| index := i;
                   params := decodeType <$> info_params f;
                   results := decodeType <$> info_results f |}.
Proof.
  destruct (parseWasmInfo_objects m) as [Hobj Hidx]. split.
  - rewrite Hidx, length_fmap, length_seq. reflexivity.
  - intros i f Hi.
    assert (byIndex (parseWasmInfo m) i = Some i) as Hby.
    { unfold byIndex. rewrite Hidx, list_lookup_fmap.
      rewrite lookup_seq_lt by (eapply lookup_lt_Some, Hi). reflexivity. }
    split; [exact Hby|]. rewrite Hby. unfold deref. simpl.
    rewrite Hobj, list_lookup_imap, Hi. reflexivity.
Qed.

Lemma funcsByIndex_by_position_witness :
  byIndex (parseWasmInfo sample_module) 1 = Some 1%nat ∧
  deref (parseWasmInfo sample_module) (byIndex (parseWasmInfo sample_module) 1)
  = Some {| index := 1; params := decodeType <$> [Binaryen_i64];
            results := decodeType <$> [] |}.
Proof.
  destruct (funcsByIndex_by_position sample_module) as [_ Hentry].
  apply (Hentry 1%nat {| info_name := "b"; info_params := [Binaryen_i64];
                         info_results := [] |}).
  reflexivity.
Defined.






(** X12: in a module whose functions have distinct internal names, whose
    function exports have distinct names and where no function is exported
    under the internal name of another function, every export name of the
    function at index [i] refers to the very object at [funcsByIndex[i]],
    and the arguments of an invocation by that name are converted by that
    function's own parameter types. *)
Theorem invoke_by_export_name (m : BinaryenModule) (e : ExportInfo) (i : nat)
    (f : FunctionInfo) (argv : Argv) :
  NoDup (info_name <$> functions m) →
  NoDup (exp_name <$> filter function_export (exports m)) →
  no_reused_name m →
  e ∈ exports m → function_export e →
  functions m !! i = Some f → exp_value e = info_name f →
  byName (parseWasmInfo m) (exp_name e) = byIndex (parseWasmInfo m) i ∧
  deref (parseWasmInfo m) (byName (parseWasmInfo m) (exp_name e))
  = Some (signature_of i f) ∧
  call_arguments m argv (exp_name e)
  = coerce (decodeType <$> info_params f) (drop 1 (positional argv)).
Proof.
  intros Hnames Hexports Hreuse Hin Hfun Hi Hval.
  destruct (exports_alias_their_function m e i f Hnames Hexports Hreuse Hin Hfun Hi Hval)
    as (Hname & Hindex & Hobject).
  rewrite Hname, Hindex. split; [reflexivity|]. split; [exact Hobject|].
  unfold call_arguments. rewrite Hname, Hobject. reflexivity.
Qed.

Lemma plain_module_no_reused_name : no_reused_name plain_module.
Proof.
  intros e k f He _ Hk Hname. exfalso.
  apply list_elem_of_lookup_2 in Hk.
  repeat (apply elem_of_cons in Hk as [->|Hk]);
    [| |apply elem_of_nil in Hk as []];
    repeat (apply elem_of_cons in He as [->|He]);
    try discriminate Hname; apply elem_of_nil in He as [].
Qed.

Lemma invoke_by_export_name_witness :
  byName (parseWasmInfo plain_module) "y" = byIndex (parseWasmInfo plain_module) 0 ∧
  deref (parseWasmInfo plain_module) (byName (parseWasmInfo plain_module) "y")
  = Some (signature_of 0 {| info_name := "a"; info_params := [Binaryen_i32];
                            info_results := [] |}) ∧
  call_arguments plain_module
    {| invoke := Some "y";
       positional := [JString "m.wasm"; JNumber (Number_of_ratio false 21 1)] |} "y"
  = coerce (decodeType <$> [Binaryen_i32])
           (drop 1 [JString "m.wasm"; JNumber (Number_of_ratio false 21 1)]).
Proof.
  apply (invoke_by_export_name plain_module
           {| exp_kind := ExternalFunction; exp_name := "y"; exp_value := "a" |} 0
           {| info_name := "a"; info_params := [Binaryen_i32]; info_results := [] |}).
  - apply (bool_decide_unpack _). vm_compute. exact I.
  - apply (bool_decide_unpack _). vm_compute. exact I.
  - apply plain_module_no_reused_name.
  - apply list_elem_of_further, list_elem_of_here.
  - reflexivity.
  - reflexivity.
  - reflexivity.
Defined.

(** ** Choosing what to run, read backwards *)

(** X13: a function is invoked only under a name that is exported and not
    empty, and only when that name was requested or is the sole export of a
    module without a WASI namespace and nothing was requested; the run is
    fatal only for a requested name that is not exported, with the message
    ["Function not found: "] followed by the name; the WASI entry point is
    started only when no name, or the empty name, was requested. *)
Theorem select_only_when (wasi : option Abi) (argv : Argv) (wasmInfo : WasmInfo) :
  (∀ name, select wasi argv wasmInfo = InvokeExport name →
     name ∈ exportedFuncs wasmInfo ∧ name ≠ ""%string ∧
     (invoke argv = Some name ∨
      (truthy (invoke argv) = false ∧ truthy (wasiVersion wasmInfo) = false ∧
       exportedFuncs wasmInfo = [name]))) ∧
  (∀ msg, select wasi argv wasmInfo = Fatal msg →
     ∃ name, invoke argv = Some name ∧ name ≠ ""%string ∧
             (name ∉ exportedFuncs wasmInfo) ∧
             msg = ("Function not found: " +:+ name)%string) ∧
  (select wasi argv wasmInfo = WasiStart →
     truthy (invoke argv) = false ∧
     (truthy (wasiVersion wasmInfo) = true ∨ length (exportedFuncs wasmInfo) ≠ 1%nat ∨
      exportedFuncs wasmInfo = [""%string])).
Proof.
  assert (∀ name, truthy (Some name) = true → name ≠ ""%string) as Htruthy.
  { intros name. simpl. destruct (String.eqb_spec name ""); [discriminate|auto]. }
  unfold select, auto_invoke.
  destruct (truthy (invoke argv)) eqn:Hinv; cbn [negb andb].
  - (* a name was requested *)
    rewrite Hinv. destruct (invoke argv) as [name|] eqn:Hname; [|discriminate]. simpl.
    pose proof (includes_elem_of (exportedFuncs wasmInfo) name) as Hincl.
    destruct (includes (exportedFuncs wasmInfo) name); simpl.
    + split; [|split; intros; discriminate].
      intros ? [= <-]. split; [apply Hincl; reflexivity|]. auto.
    + split; [intros; discriminate|]. split; [|intros; discriminate].
      intros ? [= <-]. exists name. repeat split; auto.
      intros Hin. apply Hincl in Hin. discriminate.
  - destruct (truthy (wasiVersion wasmInfo)) eqn:Hwasi; cbn [negb andb].
    + rewrite Hinv. destruct wasi;
        (split; [intros; discriminate|]; split; [intros; discriminate|]; auto).
    + destruct (exportedFuncs wasmInfo) as [|f [|g rest]] eqn:Hexp; simpl.
      * rewrite Hinv. destruct wasi;
          (split; [intros; discriminate|]; split; [intros; discriminate|]);
          intros _; split; [reflexivity| |reflexivity|]; right; left; discriminate.
      * destruct (String.eqb_spec f "") as [->|Hne]; simpl.
        -- destruct wasi;
             (split; [intros; discriminate|]; split; [intros; discriminate|]; auto).
        -- rewrite String.eqb_refl. simpl.
           split; [|split; intros; discriminate].
           intros ? [= <-]. split; [apply list_elem_of_here|]. auto.
      * rewrite Hinv. destruct wasi;
          (split; [intros; discriminate|]; split; [intros; discriminate|]);
          intros _; split; [reflexivity| |reflexivity|]; right; left; discriminate.
Qed.

Lemma select_only_when_witness :
  "double"%string ∈ ["double"%string] ∧ "double"%string ≠ ""%string ∧
  (None = Some "double"%string ∨
   (truthy None = false ∧ truthy None = false ∧ ["double"%string] = ["double"%string])).
Proof.
  destruct (select_only_when None
              {| invoke := None;
                 positional := [JString "m.wasm"; JNumber (Number_of_ratio false 21 1)] |}
              {| wasiVersion := None; exportedFuncs := ["double"%string] |})
    as (Hinvoke & _ & _).
  apply (Hinvoke "double"%string). reflexivity.
Defined.

(** X14: the detected WASI version is the last import namespace that starts
    with [wasi_]: it is one of the import namespaces, it is never the empty
    string, so it is truthy, and nothing is detected exactly when no import
    namespace starts with [wasi_]. *)
Theorem detect_wasiVersion_is_last (import_modules : list string) :
  detect_wasiVersion import_modules
  = last (filter (λ m, String.prefix "wasi_" m = true) import_modules) ∧
  (∀ v, detect_wasiVersion import_modules = Some v →
        v ∈ import_modules ∧ String.prefix "wasi_" v = true ∧ truthy (Some v) = true) ∧
  (detect_wasiVersion import_modules = None
   ↔ Forall (λ m, String.prefix "wasi_" m = false) import_modules).
Proof.
  assert (detect_wasiVersion import_modules
          = last (filter (λ m, String.prefix "wasi_" m = true) import_modules)) as Hlast.
  { unfold detect_wasiVersion.
    induction import_modules as [|m l IH] using rev_ind; [reflexivity|].
    rewrite foldl_snoc, filter_app, IH.
    destruct (String.prefix "wasi_" m) eqn:Hm.
    - rewrite filter_cons_True, filter_nil by exact Hm. rewrite last_snoc. reflexivity.
    - rewrite filter_cons_False, filter_nil by congruence. rewrite app_nil_r. reflexivity. }
  split; [exact Hlast|]. rewrite Hlast. split.
  - intros v Hv. apply last_Some_elem_of in Hv.
    apply list_elem_of_filter in Hv as [Hprefix Hin].
    split; [exact Hin|]. split; [exact Hprefix|].
    destruct v; [discriminate Hprefix|reflexivity].
  - rewrite last_None. split.
    + intros Hnone. apply Forall_forall. intros m Hm.
      destruct (String.prefix "wasi_" m) eqn:Hp; [|reflexivity].
      assert (m ∈ filter (λ m, String.prefix "wasi_" m = true) import_modules) as Hin
        by (apply list_elem_of_filter; auto).
      rewrite Hnone in Hin. apply elem_of_nil in Hin as [].
    + intros Hall.
      destruct (filter (λ m, String.prefix "wasi_" m = true) import_modules)
        as [|m l] eqn:Hfilter; [reflexivity|].
      assert (m ∈ filter (λ m, String.prefix "wasi_" m = true) import_modules) as Hin
        by (rewrite Hfilter; apply list_elem_of_here).
      apply list_elem_of_filter in Hin as [Hprefix Hin].
      rewrite Forall_forall in Hall. rewrite (Hall m Hin) in Hprefix. discriminate.
Qed.

Lemma detect_wasiVersion_is_last_witness :
  "wasi_unstable"%string ∈ ["env"%string; "wasi_unstable"%string] ∧
  String.prefix "wasi_" "wasi_unstable" = true ∧
  truthy (Some "wasi_unstable"%string) = true.
Proof.
  destruct (detect_wasiVersion_is_last ["env"%string; "wasi_unstable"%string])
    as (_ & Hdetected & _).
  apply Hdetected. reflexivity.
Defined.

(** ** Text format *)

Lemma prefix_occurs (pattern text : string) :
  String.prefix pattern text = true → ∃ after, text = (pattern +:+ after)%string.
Proof.
  revert text. induction pattern as [|c pattern IH]; intros text.
  - intros _. exists text. reflexivity.
  - destruct text as [|d text]; [intros [=]|]. cbn [String.prefix].
    destruct (Ascii.ascii_dec c d) as [->|Hne]; [|intros [=]].
    intros [after ->]%IH. exists after. reflexivity.
Qed.

Lemma prefix_app (pattern after : string) :
  String.prefix pattern (pattern +:+ after) = true.
Proof.
  induction pattern as [|c pattern IH]; [destruct after; reflexivity|].
  change (String c pattern +:+ after)%string with (String c (pattern +:+ after)).
  cbn [String.prefix]. destruct (Ascii.ascii_dec c c); [exact IH|done].
Qed.

Lemma occurs_occursb (pattern text : string) :
  occurs pattern text → occursb pattern text = true.
Proof.
  intros (before & after & ->).
  induction before as [|c before IH].
  - change (occursb pattern (pattern +:+ after) = true).
    destruct (pattern +:+ after)%string eqn:Happ; cbn [occursb];
      rewrite <- Happ, prefix_app; reflexivity.
  - change (occursb pattern (String c (before +:+ pattern +:+ after)) = true).
    cbn [occursb]. rewrite IH. apply orb_true_r.
Qed.

Lemma replace_from_absent (pattern replacement text : string) :
  ¬ occurs pattern text → replace_from pattern replacement 0 text = text.
Proof.
  induction text as [|c text IH]; intros Habsent; [reflexivity|].
  cbn [replace_from].
  destruct (String.prefix pattern (String c text)) eqn:Hprefix.
  - exfalso. apply Habsent. apply prefix_occurs in Hprefix as [after ->].
    exists ""%string, after. reflexivity.
  - f_equal. apply IH. intros (before & after & ->). apply Habsent.
    exists (String c before), after. reflexivity.
Qed.

(** X15: a text in which none of [get_local], [get_global], [set_local]
    and [set_global] occurs is handed to Binaryen as it is. *)
Theorem wat2wasm_text_unchanged (wat : string) :
  ¬ occurs "get_local" wat → ¬ occurs "get_global" wat →
  ¬ occurs "set_local" wat → ¬ occurs "set_global" wat →
  wat2wasm_text wat = wat.
Proof.
  intros Hgl Hgg Hsl Hsg. unfold wat2wasm_text, replace_all.
  rewrite (replace_from_absent "get_local") by assumption.
  rewrite (replace_from_absent "get_global") by assumption.
  rewrite (replace_from_absent "set_local") by assumption.
  apply replace_from_absent. assumption.
Qed.

Lemma wat2wasm_text_unchanged_witness :
  wat2wasm_text "(func (param i32) (result i32) (local.get 0))" =
  "(func (param i32) (result i32) (local.get 0))"%string.
Proof.
  apply wat2wasm_text_unchanged;
    intros Hoccurs%occurs_occursb; vm_compute in Hoccurs; discriminate Hoccurs.
Defined.

(** ** The encoder's buffer *)

Lemma encode_no_room (t : rtype) (v : value) (e : EncodeBuffer) :
  (pos e ≤ length (buff e) < pos e + size t)%nat →
  ∃ err, encode t v e = inl err ∧ (err = TypeError ∨ err = RangeError).
Proof.
  revert v e. induction t as [bytes|t' count _|fields IH] using rtype_nested_ind;
    intros v e [Hpos Hroom].
  - cbn [size] in Hroom. cbn [encode]. unfold writeUInt.
    destruct (match ToNumber v with Some _ => _ | None => _ end); [eauto|].
    apply Nat.ltb_lt in Hroom. rewrite Hroom. eauto.
  - cbn [size] in Hroom. cbn [encode]. unfold fill.
    apply Nat.ltb_lt in Hroom. rewrite Hroom. eauto.
  - revert e Hpos Hroom. induction IH as [|[key ty] fs Hty _ IHfs]; intros e Hpos Hroom.
    + cbn [size] in Hroom. simpl in Hroom. lia.
    + rewrite size_Struct_cons in Hroom. rewrite encode_Struct_cons.
      assert (∀ w, ∃ err, cbind (encode ty w e) (encode (Struct fs) v) = inl err ∧
                          (err = TypeError ∨ err = RangeError)) as Hfield.
      { intros w. destruct (decide (pos e + size ty ≤ length (buff e))%nat) as [Hfit|Hfit].
        - rewrite encode_serialize by assumption.
          destruct (serialize ty w) as [err|bs] eqn:Hbytes; cbn [cbind].
          + exists err. split; [reflexivity|]. eapply serialize_errors, Hbytes.
          + apply IHfs; cbn [pos buff]; rewrite length_inserts; lia.
        - cbn [snd] in Hty. destruct (Hty w e) as (err & -> & Herr); [lia|].
          exists err. split; [reflexivity|assumption]. }
      destruct v as [|n|props]; [eauto|apply Hfield..].
Qed.

(** X16: encoding into an [EncodeBuffer] never grows the buffer and never
    writes outside the span of the value.  When [encode] returns, the value
    had room, [pos] has advanced by [T.size()], the buffer has its length
    and, outside the span, its bytes, and the [buffer] getter yields what it
    yielded before followed by the bytes of the span.  Otherwise the error
    is a type error or a range error; a value without room is always an
    error. *)
Theorem encode_within_buffer (t : rtype) (v : value) (e : EncodeBuffer) :
  (pos e ≤ length (buff e))%nat →
  match encode t v e with
  | inr e' =>
      (pos e + size t ≤ length (buff e))%nat ∧
      pos e' = (pos e + size t)%nat ∧
      length (buff e') = length (buff e) ∧
      (∀ j, (j < pos e ∨ pos e + size t ≤ j)%nat → buff e' !! j = buff e !! j) ∧
      buffer e' = buffer e ++ take (size t) (drop (pos e) (buff e'))
  | inl err => err = TypeError ∨ err = RangeError
  end.
Proof.
  intros Hpos.
  destruct (decide (pos e + size t ≤ length (buff e))%nat) as [Hfit|Hfit].
  - rewrite encode_serialize by assumption.
    destruct (serialize t v) as [err|bs] eqn:Hbytes; cbn [cbind].
    + eapply serialize_errors, Hbytes.
    + apply serialize_length in Hbytes. cbn [pos buff]. unfold buffer. cbn [pos buff].
      assert (∀ j, (j < pos e ∨ pos e + size t ≤ j)%nat →
                   list_inserts (pos e) bs (buff e) !! j = buff e !! j) as Hframe.
      { intros j [Hj|Hj].
        - apply list_lookup_inserts_lt. assumption.
        - apply list_lookup_inserts_ge. lia. }
      split_and!; [assumption|reflexivity|apply length_inserts|exact Hframe|].
      rewrite <- take_take_drop. f_equal.
      apply list_eq. intros j. destruct (decide (j < pos e)%nat) as [Hj|Hj].
      * rewrite !lookup_take_lt by assumption. apply Hframe. auto.
      * rewrite !lookup_take_ge by lia. reflexivity.
  - destruct (encode_no_room t v e) as (err & -> & Herr); [lia|assumption].
Qed.

Lemma encode_within_buffer_witness :
  match encode uint32 (VNumber 7) (new_EncodeBuffer 4) with
  | inr e' =>
      (pos (new_EncodeBuffer 4) + size uint32 ≤ length (buff (new_EncodeBuffer 4)))%nat ∧
      pos e' = (pos (new_EncodeBuffer 4) + size uint32)%nat ∧
      length (buff e') = length (buff (new_EncodeBuffer 4)) ∧
      (∀ j, (j < pos (new_EncodeBuffer 4) ∨ pos (new_EncodeBuffer 4) + size uint32 ≤ j)%nat →
            buff e' !! j = buff (new_EncodeBuffer 4) !! j) ∧
      buffer e' = buffer (new_EncodeBuffer 4) ++
                  take (size uint32) (drop (pos (new_EncodeBuffer 4)) (buff e'))
  | inl err => err = TypeError ∨ err = RangeError
  end.
Proof.
  apply (encode_within_buffer uint32 (VNumber 7) (new_EncodeBuffer 4)).
  vm_compute. lia.
Defined.
